(** * Subcluster scoring, ranking and selection of the FAQ pipeline

    A shallow embedding of [_3_select_tickets/cluster_helper.py],
    [_3_select_tickets/generate_subclusters.py], the configuration
    constants and the main program of
    [_3_select_tickets/select_subclusters.py], and the reader of the
    candidate file in [_4_generate_faqs/faq_gen.py].

    Number model.  Python floats and numpy [float64] values are modelled as
    real numbers ([R]): every arithmetic operation is exact, there is no
    rounding, no NaN and no infinity.  The one place where the code can
    produce an infinity (a division by [total = 0] in [compute_best_k]) is
    written out as a case of its own.  Integer quantities (sizes, labels,
    indices, counts) are [nat].  Statements about exact values, bounds and
    invariance of the cosine scores and of the normalized size are
    statements about this exact arithmetic; the module [Float64] holds
    the same functions with every operation rounded to binary64, and the
    code is evaluated there on small inputs where rounding shows.

    Library model.  The numeric helpers of numpy and scikit-learn that the
    code calls ([normalize], [cosine_similarity], [np.sum], [np.trace],
    [np.mean], [np.unique], [MinMaxScaler], [argsort], [list.sort],
    [sorted]) are written out from their documented behaviour.  The
    learning components ([SentenceTransformer.encode] followed by
    [PCA.fit_transform], [KMeans], [silhouette_score]) are parameters of
    the development: the code only consumes their results. *)

From Stdlib Require Import String Ascii.
From Stdlib Require Import Reals Lra Lia List Bool Arith.
From Stdlib Require Import Permutation Sorted.
From Stdlib Require Floats.PrimFloat.
Import ListNotations.

Open Scope R_scope.

(* ================================================================== *)
(** * Scalars *)

(** Comparisons of floats, as booleans. *)
Definition Rltb (x y : R) : bool := if Rlt_dec x y then true else false.
Definition Reqb (x y : R) : bool := if Req_dec_T x y then true else false.

(** A raised Python exception is [None]. *)
Definition bind {A B : Type} (m : option A) (f : A -> option B) : option B :=
  match m with
  | Some a => f a
  | None => None
  end.

Notation "x <- m ;; k" := (bind m (fun x => k))
  (at level 61, m at next level, right associativity).

Fixpoint mapM {A B : Type} (f : A -> option B) (l : list A) : option (list B) :=
  match l with
  | [] => Some []
  | a :: t => b <- f a ;; bs <- mapM f t ;; Some (b :: bs)
  end.

(* ================================================================== *)
(** * Stable sorting

    [list.sort] and [sorted] are stable ascending sorts by a float key. *)

Section StableSort.
Context {A : Type}.
Variable key : A -> R.

Fixpoint insert_by (x : A) (l : list A) : list A :=
  match l with
  | [] => [x]
  | y :: t => if Rltb (key y) (key x) then y :: insert_by x t else x :: y :: t
  end.

(** Stable ascending sort: an element is placed after the elements with a
    strictly smaller key and before every other element that followed it
    in the input. *)
Fixpoint sort_by (l : list A) : list A :=
  match l with
  | [] => []
  | x :: t => insert_by x (sort_by t)
  end.

(** [sorted(l, key=key, reverse=True)]: Python reverses the list, sorts it
    with the stable ascending sort and reverses the result, so that equal
    keys keep their input order. *)
Definition sorted_reverse (l : list A) : list A := rev (sort_by (rev l)).
End StableSort.

(** [v.argsort()]: the indices of [v] in ascending order of value.  numpy
    documents no order among equal values: its default sort is an
    introsort that finishes with an insertion sort with a strict
    comparison, and sorts arrays of at most 17 elements by that insertion
    sort alone.  The definition is that insertion sort at every length;
    what is proved for all lengths uses only that the result holds every
    index once in ascending order of value. *)
Definition argsort (v : list R) : list nat :=
  sort_by (fun i => nth i v 0) (seq 0 (length v)).

(* ================================================================== *)
(** * Vectors and matrices (numpy arrays, row-major) *)

Definition vec := list R.
Definition matrix := list vec.

Fixpoint Rsum (l : list R) : R :=
  match l with
  | [] => 0
  | x :: t => x + Rsum t
  end.

Fixpoint dot (x y : vec) : R :=
  match x, y with
  | a :: x', b :: y' => a * b + dot x' y'
  | _, _ => 0
  end.

(** [np.sum] of a 2-D array. *)
Definition np_sum (M : matrix) : R := Rsum (map Rsum M).

(** [np.trace]: the sum of the entries [M[i][i]]. *)
Fixpoint trace_from (i : nat) (M : matrix) : R :=
  match M with
  | [] => 0
  | r :: M' => nth i r 0 + trace_from (S i) M'
  end.

Definition np_trace (M : matrix) : R := trace_from 0 M.

(** [np.mean] of a 1-D array. *)
Definition np_mean (l : list R) : R := Rsum l / INR (length l).

(** [ndarray.flatten] of a 2-D array. *)
Definition flatten (M : matrix) : list R := concat M.

(** scikit-learn replaces a zero norm or a zero range by one before it
    divides. *)
Definition handle_zeros_in_scale (s : R) : R :=
  if Req_dec_T s 0 then 1 else s.

Definition row_norm (v : vec) : R := sqrt (dot v v).

(** [sklearn.preprocessing.normalize]: each row divided by its L2 norm. *)
Definition normalize_row (v : vec) : vec :=
  map (fun a => a / handle_zeros_in_scale (row_norm v)) v.

Definition normalize (X : matrix) : matrix := map normalize_row X.

(** [sklearn.metrics.pairwise.cosine_similarity X Y]: both arguments are
    normalized, the result is the matrix of dot products. *)
Definition cosine_similarity (X Y : matrix) : matrix :=
  map (fun x => map (fun y => dot x y) (normalize Y)) (normalize X).

(** [MinMaxScaler().fit_transform] on one column: [scale_] and [min_] for
    the feature range (0, 1); an empty column is rejected. *)
Definition Rlist_min (x0 : R) (l : list R) : R := fold_left Rmin l x0.
Definition Rlist_max (x0 : R) (l : list R) : R := fold_left Rmax l x0.

Definition MinMaxScaler_fit_transform (X : list R) : option (list R) :=
  match X with
  | [] => None
  | x0 :: rest =>
      let data_min := Rlist_min x0 rest in
      let data_max := Rlist_max x0 rest in
      let data_range := data_max - data_min in
      let scale_ := (1 - 0) / handle_zeros_in_scale data_range in
      let min_ := 0 - data_min * scale_ in
      Some (map (fun x => x * scale_ + min_) X)
  end.

(** [np.unique(labels, return_counts=True)]: the distinct labels in
    ascending order, each with its number of occurrences. *)
Definition np_unique_counts (labels : list nat) : list (nat * nat) :=
  filter (fun uc => (0 <? snd uc)%nat)
         (map (fun u => (u, count_occ Nat.eq_dec labels u))
              (seq 0 (S (list_max labels)))).

(* ================================================================== *)
(** * Data model *)

(** A row of the merged ticket frame; a missing resolution (NaN) is [None]. *)
Record ticket := mk_ticket {
  issue_summary : string;
  resolution : option string
}.

(** A frame whose index was reset: rows in positional order. *)
Definition dataframe := list ticket.

(** [Series.dropna().tolist()]. *)
Definition dropna (l : list (option string)) : list string :=
  flat_map (fun o => match o with Some s => [s] | None => [] end) l.

(** [df.loc[indices]]: label lookup on a reset index; an absent label raises. *)
Definition loc (df : dataframe) (indices : list nat) : option dataframe :=
  mapM (fun i => nth_error df i) indices.

(** [a[mask]] with a boolean mask. *)
Definition boolean_mask {A : Type} (mask : list bool) (l : list A) : list A :=
  map snd (filter fst (combine mask l)).

(** The dictionaries appended to [global_subcluster_stats].  The keys
    [normalized_size] and [score] are absent until [compute_ranked_scores]
    assigns them. *)
Record subcluster_stats := mk_subcluster_stats {
  cluster : nat;
  subcluster_id : nat;
  summaries : list string;
  resolutions : list string;
  size : nat;
  cohesion : R;
  separation : R;
  embeddings : matrix;
  normalized_size : option R;
  score : option R
}.

(** The dictionaries of the first pass over the labels of one parent
    cluster. *)
Record sub_entry := mk_sub_entry {
  sub_id : nat;
  sub_df : dataframe;
  sub_embeddings : matrix
}.

(* ================================================================== *)
(** * select_subclusters.py: configuration *)

Definition MIN_SIZE : R := 5 / 100.
Definition MAX_SIZE : R := 80 / 100.
Definition EPSILON : R := 1 / 1000.
Definition NUM_FAQs : nat := 20.

(* ================================================================== *)
(** * cluster_helper.py: ranking, cohesion, separation, scoring *)

(** [similarities.argsort()[::-1]]. *)
Definition top_indices (similarities : list R) : list nat :=
  rev (argsort similarities).

Definition get_top_entries_by_centroid
    (embeddings : matrix) (centroid : vec) (df : dataframe)
  : option (list string * list string) :=
  let centroid := [centroid] in
  let norm_embeddings := normalize embeddings in
  let norm_centroid := normalize centroid in
  let similarities := flatten (cosine_similarity norm_embeddings norm_centroid) in
  let top_indices := top_indices similarities in
  rows <- loc df top_indices ;;
  let top_summaries := map issue_summary rows in
  let top_resolutions := dropna (map resolution rows) in
  Some (top_summaries, top_resolutions).

Definition compute_cohesion (embeddings : matrix) : R :=
  let embeddings := normalize embeddings in
  let n_samples := length embeddings in
  let sim_matrix := cosine_similarity embeddings embeddings in
  let total_sim := np_sum sim_matrix in
  let diagonal := np_trace sim_matrix in
  (total_sim - diagonal) / (INR n_samples * (INR n_samples - 1)).

Definition compute_separation (embeddings_a embeddings_b : matrix) : R :=
  let embeddings_a := normalize embeddings_a in
  let embeddings_b := normalize embeddings_b in
  let sim_matrix := cosine_similarity embeddings_a embeddings_b in
  let total_sim := np_sum sim_matrix in
  let n_comparisons := (length embeddings_a * length embeddings_b)%nat in
  1 - total_sim / INR n_comparisons.

(** The two assignments [s["normalized_size"] = ...; s["score"] = ...]. *)
Definition set_scores (s : subcluster_stats) (ns sc : R) : subcluster_stats :=
  {| cluster := cluster s;
     subcluster_id := subcluster_id s;
     summaries := summaries s;
     resolutions := resolutions s;
     size := size s;
     cohesion := cohesion s;
     separation := separation s;
     embeddings := embeddings s;
     normalized_size := Some ns;
     score := Some sc |}.

Definition compute_ranked_scores
    (subclusters : list subcluster_stats)
    (size_weight cohesion_weight separation_weight : R)
  : option (list subcluster_stats) :=
  let sizes := map (fun s => INR (size s)) subclusters in
  let cohesions := map cohesion subclusters in
  let separations := map separation subclusters in
  normalized_sizes <- MinMaxScaler_fit_transform sizes ;;
  Some (map (fun '(i, s) =>
               let score :=
                 size_weight * nth i normalized_sizes 0 +
                 cohesion_weight * nth i cohesions 0 +
                 separation_weight * nth i separations 0 in
               set_scores s (nth i normalized_sizes 0) score)
            (combine (seq 0 (length subclusters)) subclusters)).

(* ================================================================== *)
(** * generate_subclusters.py: selection *)

(** [s.get("normalized_size", 0)]. *)
Definition get_normalized_size (s : subcluster_stats) : R :=
  match normalized_size s with
  | Some v => v
  | None => 0
  end.

(** [x["score"]]; the key is present on every record that
    [compute_ranked_scores] returned. *)
Definition get_score (s : subcluster_stats) : R :=
  match score s with
  | Some v => v
  | None => 0
  end.

(** The condition of the list comprehension that filters by size. *)
Definition size_in_bounds (s : subcluster_stats) : bool :=
  Rltb (MIN_SIZE + EPSILON) (get_normalized_size s) &&
  Rltb (get_normalized_size s) (MAX_SIZE - EPSILON).

Definition select_top_subclusters (global_subcluster_stats : list subcluster_stats)
  : option (list subcluster_stats) :=
  updated_subclusters <-
    compute_ranked_scores global_subcluster_stats (4 / 10) (12 / 10) (2 / 10) ;;
  let filtered := filter size_in_bounds updated_subclusters in
  let ranked := sorted_reverse get_score filtered in
  let top_faq_subclusters := firstn NUM_FAQs ranked in
  Some top_faq_subclusters.

(* ================================================================== *)
(** * The learning components and the code that drives them *)

Section Pipeline.

(** [model.encode(..., normalize_embeddings=True)] followed by
    [PCA(n_components=10, random_state=42).fit_transform]. *)
Variable encode_reduce : list string -> matrix.

(** [KMeans(n_clusters=k, random_state=42, n_init=50)] fitted on [X]:
    [labels_] and [cluster_centers_].  The seed is fixed, so [fit] and
    [fit_predict] on the same input give the same labels. *)
Variable KMeans : nat -> matrix -> list nat * matrix.

Variable silhouette_score : matrix -> list nat -> R.

(** [max_prop > 0.85] for [max_prop = counts.max() / total]; numpy
    divides a positive count by zero to [inf]. *)
Definition max_prop_exceeds (counts_max total : nat) : bool :=
  if (total =? 0)%nat then (0 <? counts_max)%nat
  else Rltb (85 / 100) (INR counts_max / INR total).

(** One iteration of the loop over [k]: [None] when [counts.max()] raises
    on an empty array, otherwise the candidate list after the iteration. *)
Definition best_k_step (X : matrix) (total : nat)
    (candidate_scores : list (nat * R)) (k : nat)
  : option (list (nat * R)) :=
  let labels := fst (KMeans k X) in
  let counts := map snd (np_unique_counts labels) in
  match counts with
  | [] => None
  | _ :: _ =>
      if existsb (fun c => (c <? 5)%nat) counts
         || max_prop_exceeds (list_max counts) total
      then Some candidate_scores
      else
        let silo_score := silhouette_score X labels in
        Some (candidate_scores ++ [(k, silo_score)])
  end.

Fixpoint best_k_loop (X : matrix) (total : nat) (ks : list nat)
    (candidate_scores : list (nat * R)) : option (list (nat * R)) :=
  match ks with
  | [] => Some candidate_scores
  | k :: ks' =>
      cs <- best_k_step X total candidate_scores k ;;
      best_k_loop X total ks' cs
  end.

Definition compute_best_k (X : matrix) (total : nat) : option nat :=
  candidate_scores <- best_k_loop X total (seq 2 3) [] ;;
  match sort_by (fun c => - snd c) candidate_scores with
  | c :: _ => Some (fst c)
  | [] => Some 1%nat
  end.

Definition subcluster_embeddings_kmeans (embeddings : matrix) (k : nat)
  : list nat * matrix :=
  let labels := fst (KMeans k embeddings) in
  let centroids := snd (KMeans k embeddings) in
  (labels, centroids).

(** First pass over [range(k)]: the rows and vectors of each label. *)
Definition first_pass (cluster_df : dataframe) (embeddings : matrix)
    (labels : list nat) (k : nat) : list sub_entry :=
  map (fun sub_id =>
         let mask := map (fun l => (l =? sub_id)%nat) labels in
         {| sub_id := sub_id;
            sub_df := boolean_mask mask cluster_df;
            sub_embeddings := boolean_mask mask embeddings |})
      (seq 0 k).

(** The inner loop over [other in subclusters]. *)
Fixpoint sibling_separations (sub_id0 : nat) (embeddings_a : matrix)
    (others : list sub_entry) : list R :=
  match others with
  | [] => []
  | other :: rest =>
      if (sub_id other =? sub_id0)%nat
      then sibling_separations sub_id0 embeddings_a rest
      else compute_separation embeddings_a (sub_embeddings other)
             :: sibling_separations sub_id0 embeddings_a rest
  end.

(** [np.mean(separations) if separations else 0.0]. *)
Definition mean_or_zero (separations : list R) : R :=
  match separations with
  | [] => 0
  | _ :: _ => np_mean separations
  end.

(** The body of the second pass for one subcluster: the record appended
    to [global_subcluster_stats]. *)
Definition score_subcluster (cluster_id : nat) (centroids : matrix)
    (subclusters : list sub_entry) (subcluster : sub_entry)
  : option subcluster_stats :=
  let sub_id := sub_id subcluster in
  let sub_df := sub_df subcluster in
  let embeddings_a := sub_embeddings subcluster in
  let size := length sub_df in
  let cohesion := compute_cohesion embeddings_a in
  let separations := sibling_separations sub_id embeddings_a subclusters in
  let separation := mean_or_zero separations in
  centroid <- nth_error centroids sub_id ;;
  tops <- get_top_entries_by_centroid embeddings_a centroid sub_df ;;
  Some {| cluster := cluster_id;
          subcluster_id := sub_id;
          summaries := map issue_summary sub_df;
          resolutions := dropna (map resolution sub_df);
          size := size;
          cohesion := cohesion;
          separation := separation;
          embeddings := embeddings_a;
          normalized_size := None;
          score := None |}.

(** One iteration of the loop over the parent clusters: the records this
    parent cluster contributes ([[]] when [k = 1]). *)
Definition process_cluster (cluster_id : nat) (cluster_df : dataframe)
  : option (list subcluster_stats) :=
  let summaries_all := map issue_summary cluster_df in
  let embeddings := encode_reduce summaries_all in
  k <- compute_best_k embeddings (length cluster_df) ;;
  if (k =? 1)%nat then Some []
  else
    let '(labels, centroids) := subcluster_embeddings_kmeans embeddings k in
    let subclusters := first_pass cluster_df embeddings labels k in
    mapM (score_subcluster cluster_id centroids subclusters) subclusters.

(** The loop over the parent clusters, in the order of
    [cluster_counts.items()], appending to [global_subcluster_stats]. *)
Fixpoint process_clusters (groups : list (nat * dataframe))
    (global_subcluster_stats : list subcluster_stats) : option (list subcluster_stats) :=
  match groups with
  | [] => Some global_subcluster_stats
  | (cluster_id, cluster_df) :: rest =>
      records <- process_cluster cluster_id cluster_df ;;
      process_clusters rest (global_subcluster_stats ++ records)
  end.

(** [generate_subclusters] after the frames were loaded and merged:
    [groups] are the parent clusters with their rows. *)
Definition generate_subclusters (groups : list (nat * dataframe))
  : option (list subcluster_stats) :=
  process_clusters groups [].

End Pipeline.

(* ================================================================== *)
(** * cluster_helper.py: save_subclusters, and the reader of its file in
      faq_gen.py *)

(** A cell handed to [csv.writer]: a number or a text. *)
Inductive cell : Type :=
| CInt (n : nat)
| CStr (s : string).

(** [sep.join(items)]. *)
Definition str_join (sep : string) (items : list string) : string :=
  String.concat sep items.

Definition csv_header : list cell :=
  [CStr "Cluster"; CStr "Subcluster_ID"; CStr "Num_Summaries";
   CStr "Num_Resolutions"; CStr "All_Summaries"; CStr "All_Resolutions"]%string.

(** The row written for one subcluster. *)
Definition csv_row (s : subcluster_stats) : list cell :=
  let summaries_str := str_join " ||| " (summaries s) in
  let resolutions_str :=
    match resolutions s with
    | [] => EmptyString
    | _ :: _ => str_join " ||| " (resolutions s)
    end in
  [CInt (cluster s); CInt (subcluster_id s);
   CInt (length (summaries s)); CInt (length (resolutions s));
   CStr summaries_str; CStr resolutions_str].

(** [save_subclusters]: the rows handed to the writer, the header first
    (the name of the file is left out). *)
Definition save_subclusters (top_faq_subclusters : list subcluster_stats)
  : list (list cell) :=
  csv_header :: map csv_row top_faq_subclusters.

(** The scan of [str.split(sep)]: [skip] characters of a separator that was
    just found are still to be passed over, [cur] is the piece read so
    far. *)
Fixpoint split_scan (sep : string) (skip : nat) (cur : string) (s : string)
  : list string :=
  match s with
  | EmptyString => [cur]
  | String c s' =>
      match skip with
      | S n => split_scan sep n cur s'
      | O =>
          if String.prefix sep s
          then cur :: split_scan sep (String.length sep - 1) EmptyString s'
          else split_scan sep 0 (cur ++ String c EmptyString)%string s'
      end
  end.

(** [s.split(sep)]: the pieces between the occurrences of [sep], found
    from the left; an empty separator raises. *)
Definition str_split (sep s : string) : option (list string) :=
  match sep with
  | EmptyString => None
  | String _ _ => Some (split_scan sep 0 EmptyString s)
  end.

Section Strip.
(** [str.isspace] on one character. *)
Variable isspace : ascii -> bool.

Fixpoint str_lstrip (s : string) : string :=
  match s with
  | EmptyString => EmptyString
  | String c s' => if isspace c then str_lstrip s' else s
  end.

Fixpoint str_rstrip (s : string) : string :=
  match s with
  | EmptyString => EmptyString
  | String c s' =>
      match str_rstrip s' with
      | EmptyString => if isspace c then EmptyString else String c EmptyString
      | String c' r => String c (String c' r)
      end
  end.

(** [s.strip()]. *)
Definition str_strip (s : string) : string := str_rstrip (str_lstrip s).

(** The truth value of a string: it is not empty. *)
Definition str_truthy (s : string) : bool :=
  match s with
  | EmptyString => false
  | String _ _ => true
  end.

(** faq_gen.py: [[s.strip() for s in x.split('|||') if s.strip()]]. *)
Definition parse_joined (x : string) : option (list string) :=
  parts <- str_split "|||" x ;;
  Some (filter str_truthy (map str_strip parts)).
End Strip.

(** Python's [str.isspace] on the ASCII range. *)
Definition py_isspace (c : ascii) : bool :=
  let n := nat_of_ascii c in
  ((9 <=? n)%nat && (n <=? 13)%nat) || ((28 <=? n)%nat && (n <=? 32)%nat).

(* ================================================================== *)
(** * select_subclusters.py: the main program *)

Section Main.
Variable encode_reduce : list string -> matrix.
Variable KMeans : nat -> matrix -> list nat * matrix.
Variable silhouette_score : matrix -> list nat -> R.

(** The three steps after the model is loaded: generate, select, save;
    the result is the rows written. *)
Definition select_subclusters_main (groups : list (nat * dataframe))
  : option (list (list cell)) :=
  subclusters_stats <-
    generate_subclusters encode_reduce KMeans silhouette_score groups ;;
  ranked_subclusters <- select_top_subclusters subclusters_stats ;;
  Some (save_subclusters ranked_subclusters).
End Main.

(* ================================================================== *)
(** * The cosine scores and the size normalization on binary64

    The numeric functions of [cluster_helper.py] once more, with every
    operation rounded to binary64 (the kernel's floats: IEEE 754, round to
    nearest even) where the definitions above compute in [R].  Sums and
    dot products are accumulated from left to right without fused
    multiply-add; numpy adds in this order on arrays of fewer than eight
    elements, and the module is used on inputs of that size only. *)

Module Float64.
Import PrimFloat.
Local Open Scope float_scope.

Definition vec := list float.
Definition matrix := list vec.

(** The float of a count. *)
Fixpoint of_nat (n : nat) : float :=
  match n with
  | O => 0
  | S n' => of_nat n' + 1
  end.

Definition fsum (l : list float) : float := fold_left add l 0.

Definition dot (x y : vec) : float :=
  fsum (map (fun p => fst p * snd p) (combine x y)).

(** [np.sum] of a 2-D array. *)
Definition np_sum (M : matrix) : float := fsum (concat M).

(** [np.trace]: the sum of the entries [M[i][i]]. *)
Fixpoint diagonal_from (i : nat) (M : matrix) : list float :=
  match M with
  | [] => []
  | r :: M' => nth i r 0 :: diagonal_from (S i) M'
  end.

Definition np_trace (M : matrix) : float := fsum (diagonal_from 0 M).

(** A zero norm or range is replaced by one (recent releases of
    scikit-learn also replace one below ten machine epsilons; the inputs
    evaluated here have norms and ranges of at least 1). *)
Definition handle_zeros_in_scale (s : float) : float :=
  if eqb s 0 then 1 else s.

Definition row_norm (v : vec) : float := sqrt (dot v v).

Definition normalize_row (v : vec) : vec :=
  map (fun a => a / handle_zeros_in_scale (row_norm v)) v.

Definition normalize (X : matrix) : matrix := map normalize_row X.

Definition cosine_similarity (X Y : matrix) : matrix :=
  map (fun x => map (fun y => dot x y) (normalize Y)) (normalize X).

Definition compute_cohesion (embeddings : matrix) : float :=
  let embeddings := normalize embeddings in
  let n_samples := length embeddings in
  let sim_matrix := cosine_similarity embeddings embeddings in
  let total_sim := np_sum sim_matrix in
  let diagonal := np_trace sim_matrix in
  (total_sim - diagonal) / of_nat (n_samples * (n_samples - 1))%nat.

Definition compute_separation (embeddings_a embeddings_b : matrix) : float :=
  let embeddings_a := normalize embeddings_a in
  let embeddings_b := normalize embeddings_b in
  let sim_matrix := cosine_similarity embeddings_a embeddings_b in
  let total_sim := np_sum sim_matrix in
  let n_comparisons := (length embeddings_a * length embeddings_b)%nat in
  1 - total_sim / of_nat n_comparisons.

Definition fmin (x y : float) : float := if ltb y x then y else x.
Definition fmax (x y : float) : float := if ltb x y then y else x.

Definition MinMaxScaler_fit_transform (X : list float) : option (list float) :=
  match X with
  | [] => None
  | x0 :: rest =>
      let data_min := fold_left fmin rest x0 in
      let data_max := fold_left fmax rest x0 in
      let data_range := data_max - data_min in
      let scale_ := (1 - 0) / handle_zeros_in_scale data_range in
      let min_ := 0 - data_min * scale_ in
      Some (map (fun x => x * scale_ + min_) X)
  end.
End Float64.

(* ================================================================== *)
(** * Notions of the specification *)

(** Orders on the elements by their key; [lex_lt] orders by key first and
    by [before] among equal keys. *)
Definition key_le {A : Type} (key : A -> R) (a b : A) : Prop := key a <= key b.
Definition key_ge {A : Type} (key : A -> R) (a b : A) : Prop := key b <= key a.
Definition lex_lt {A : Type} (key : A -> R) (before : A -> A -> Prop)
    (a b : A) : Prop :=
  key a < key b \/ (key a = key b /\ before a b).

(** The order the specification asks of the ranking of [sims]: a higher
    similarity first, and the lower index first among equal similarities. *)
Definition ranked_stable (sims : list R) (i j : nat) : Prop :=
  nth j sims 0 < nth i sims 0 \/ (nth i sims 0 = nth j sims 0 /\ (i < j)%nat).

(** The order the ranking has: a similarity at least as high first. *)
Definition ranked_descending (sims : list R) (i j : nat) : Prop :=
  nth j sims 0 <= nth i sims 0.

(** [m] is the least (greatest) element of [l]. *)
Definition is_min (m : R) (l : list R) : Prop :=
  In m l /\ forall x, In x l -> m <= x.
Definition is_max (m : R) (l : list R) : Prop :=
  In m l /\ forall x, In x l -> x <= m.

(** Min-max normalization as the specification writes it, with the
    fallback of the code for a zero range. *)
Definition min_max (lo hi x : R) : R :=
  if Req_dec_T lo hi then 0 else (x - lo) / (hi - lo).

(** The record that [compute_ranked_scores] makes of [s]. *)
Definition scored (lo hi size_weight cohesion_weight separation_weight : R)
    (s : subcluster_stats) : subcluster_stats :=
  let ns := min_max lo hi (INR (size s)) in
  set_scores s ns
    (size_weight * ns + cohesion_weight * cohesion s
     + separation_weight * separation s).

(** A label class with fewer than five members. *)
Definition too_small (labels : list nat) : Prop :=
  exists u, In u labels /\ (count_occ Nat.eq_dec labels u < 5)%nat.

(** A label class with more than 85% of [total]. *)
Definition too_dominant (labels : list nat) (total : nat) : Prop :=
  exists u, In u labels /\
            85 / 100 * INR total < INR (count_occ Nat.eq_dec labels u).

(** The partition of candidate [k] breaks the floor of five members or the
    ceiling of 85% of [total]. *)
Definition violates (KMeans : nat -> matrix -> list nat * matrix)
    (X : matrix) (total : nat) (k : nat) : Prop :=
  too_small (fst (KMeans k X)) \/ too_dominant (fst (KMeans k X)) total.

(** The mean silhouette score of candidate [k]. *)
Definition silhouette_of (KMeans : nat -> matrix -> list nat * matrix)
    (silhouette_score : matrix -> list nat -> R) (X : matrix) (k : nat) : R :=
  silhouette_score X (fst (KMeans k X)).

(** The test that sends the loop of [compute_best_k] to the next [k]. *)
Definition rejected (KMeans : nat -> matrix -> list nat * matrix)
    (X : matrix) (total : nat) (k : nat) : bool :=
  existsb (fun c => (c <? 5)%nat) (map snd (np_unique_counts (fst (KMeans k X))))
  || max_prop_exceeds
       (list_max (map snd (np_unique_counts (fst (KMeans k X))))) total.

(** Cosine similarity of two vectors. *)
Definition cosine (x y : vec) : R := dot (normalize_row x) (normalize_row y).


(** Mean of the cross cosine-similarity matrix of two groups. *)
Definition mean_cross_similarity (a b : matrix) : R :=
  Rsum (map (fun x => Rsum (map (cosine x) b)) a)
  / INR (length a * length b).

(** The other subclusters of the parent cluster. *)
Definition siblings (s : sub_entry) (subclusters : list sub_entry)
  : list sub_entry :=
  filter (fun o => negb (sub_id o =? sub_id s)%nat) subclusters.

(** Separation as the specification defines it: the mean over the siblings,
    one at a time, of one minus the mean cross similarity; zero without
    siblings. *)
Definition per_sibling_separation (s : sub_entry) (sibs : list sub_entry) : R :=
  match sibs with
  | [] => 0
  | _ :: _ =>
      Rsum (map (fun o => 1 - mean_cross_similarity (sub_embeddings s)
                                                    (sub_embeddings o)) sibs)
      / INR (length sibs)
  end.

(** The pooled alternative: one mean over all cross pairs at once. *)
Definition pooled_separation (s : sub_entry) (sibs : list sub_entry) : R :=
  1 - mean_cross_similarity (sub_embeddings s)
                            (concat (map sub_embeddings sibs)).

(** The similarities of the members to the centroid, as
    [get_top_entries_by_centroid] computes them. *)
Definition centroid_similarities (embeddings : matrix) (centroid : vec)
  : list R :=
  flatten (cosine_similarity (normalize embeddings) (normalize [centroid])).

(** The default row of positional reads that are known to be in range. *)
Definition no_ticket : ticket := mk_ticket EmptyString None.

(** The rows of [df] in the order of the ranking. *)
Definition ranked_rows (embeddings : matrix) (centroid : vec) (df : dataframe)
  : dataframe :=
  map (fun i => nth i df no_ticket)
      (top_indices (centroid_similarities embeddings centroid)).

(** The record that the second pass appends for [s]. *)
Definition appended_record (cluster_id : nat) (subclusters : list sub_entry)
    (s : sub_entry) : subcluster_stats :=
  {| cluster := cluster_id;
     subcluster_id := sub_id s;
     summaries := map issue_summary (sub_df s);
     resolutions := dropna (map resolution (sub_df s));
     size := length (sub_df s);
     cohesion := compute_cohesion (sub_embeddings s);
     separation := per_sibling_separation s (siblings s subclusters);
     embeddings := sub_embeddings s;
     normalized_size := None;
     score := None |}.

(** The reduced embeddings of a parent cluster. *)
Definition parent_embeddings (encode_reduce : list string -> matrix)
    (cluster_df : dataframe) : matrix :=
  encode_reduce (map issue_summary cluster_df).

(** What scikit-learn promises of the fitted clustering for [k]: one label
    below [k] for every vector, and [k] centroids. *)
Definition KMeans_contract (encode_reduce : list string -> matrix)
    (KMeans : nat -> matrix -> list nat * matrix)
    (cluster_df : dataframe) (k : nat) : Prop :=
  length (parent_embeddings encode_reduce cluster_df) = length cluster_df /\
  length (fst (KMeans k (parent_embeddings encode_reduce cluster_df)))
  = length cluster_df /\
  Forall (fun l => (l < k)%nat)
         (fst (KMeans k (parent_embeddings encode_reduce cluster_df))) /\
  length (snd (KMeans k (parent_embeddings encode_reduce cluster_df))) = k.

(** The subclusters of a parent cluster for [k]. *)
Definition parent_subclusters (encode_reduce : list string -> matrix)
    (KMeans : nat -> matrix -> list nat * matrix)
    (cluster_df : dataframe) (k : nat) : list sub_entry :=
  first_pass cluster_df (parent_embeddings encode_reduce cluster_df)
             (fst (KMeans k (parent_embeddings encode_reduce cluster_df))) k.


(** [sep] occurs in [s]. *)
Definition contains (sep s : string) : Prop :=
  exists a b, s = (a ++ sep ++ b)%string.

(** [sep] is a prefix of [s] or of one of its suffixes. *)
Fixpoint occursb (sep s : string) : bool :=
  String.prefix sep s ||
  match s with
  | EmptyString => false
  | String _ s' => occursb sep s'
  end.

(** [X] is a two-dimensional array that scikit-learn accepts: at least one
    row, and every row of one dimension [d], at least 1. *)
Definition is_array (d : nat) (X : matrix) : Prop :=
  X <> [] /\ (1 <= d)%nat /\ Forall (fun r => length r = d) X.

(** The clustering of a parent cluster for [k] is regular: the reduced
    embeddings are an array of dimension [d], so are the centroids, and
    each of the [k] labels is used. *)
Definition regular_clustering (encode_reduce : list string -> matrix)
    (KMeans : nat -> matrix -> list nat * matrix)
    (cluster_df : dataframe) (d k : nat) : Prop :=
  is_array d (parent_embeddings encode_reduce cluster_df) /\
  Forall (fun c => length c = d)
         (snd (KMeans k (parent_embeddings encode_reduce cluster_df))) /\
  forall j, (j < k)%nat ->
            In j (fst (KMeans k (parent_embeddings encode_reduce cluster_df))).

(* ================================================================== *)
(** * Example data *)

(** A record of the accumulator as the first phase leaves it. *)
Definition plain_stats (id sz : nat) (coh sep : R) : subcluster_stats :=
  {| cluster := 0;
     subcluster_id := id;
     summaries := [];
     resolutions := [];
     size := sz;
     cohesion := coh;
     separation := sep;
     embeddings := [];
     normalized_size := None;
     score := None |}.

(** A clustering oracle for twelve points: two classes of six for k = 2,
    three of four for k = 3, four of three for k = 4. *)
Definition twelve_KMeans (k : nat) (X : matrix) : list nat * matrix :=
  match k with
  | 2%nat => (repeat 0%nat 6 ++ repeat 1%nat 6, [[1; 0]; [-1; 0]])
  | 3%nat => (repeat 0%nat 4 ++ repeat 1%nat 4 ++ repeat 2%nat 4, [])
  | _ => (repeat 0%nat 3 ++ repeat 1%nat 3 ++ repeat 2%nat 3 ++ repeat 3%nat 3, [])
  end.

(** Three subclusters on a line: one member at 1, a sibling of one member
    at 1 and a sibling of two members at -1. *)
Definition line_a : sub_entry := mk_sub_entry 0 [no_ticket] [[1]].
Definition line_b : sub_entry := mk_sub_entry 1 [no_ticket] [[1]].
Definition line_c : sub_entry :=
  mk_sub_entry 2 [no_ticket; no_ticket] [[-1]; [-1]].

Definition twelve_tickets : dataframe :=
  [ mk_ticket "t0" (Some "r0"); mk_ticket "t1" None;
    mk_ticket "t2" (Some "r2"); mk_ticket "t3" (Some "r3");
    mk_ticket "t4" None;        mk_ticket "t5" (Some "r5");
    mk_ticket "t6" (Some "r6"); mk_ticket "t7" (Some "r7");
    mk_ticket "t8" (Some "r8"); mk_ticket "t9" (Some "r9");
    mk_ticket "t10" (Some "r10"); mk_ticket "t11" (Some "r11") ]%string.

(** An embedding oracle: six vectors around the axis (1, 0), six at
    (-1, 0). *)
Definition twelve_encode (_ : list string) : matrix :=
  [ [3; 4]; [4; 3]; [1; 0]; [0; 1]; [5; 12]; [12; 5];
    [-1; 0]; [-1; 0]; [-1; 0]; [-1; 0]; [-1; 0]; [-1; 0] ].

Definition twelve_silhouette (_ : matrix) (_ : list nat) : R := 1 / 2.

(** An accumulator of three records of sizes 10, 20 and 30. *)
Definition three_stats : list subcluster_stats :=
  [plain_stats 0 10 (1 / 2) (1 / 4); plain_stats 1 20 (3 / 4) (1 / 2);
   plain_stats 2 30 (1 / 4) (1 / 4)].

(** A clustering oracle for twenty points in which every candidate keeps
    both bounds: 10 + 10 for k = 2, 7 + 7 + 6 for k = 3, four times 5 for
    k = 4. *)
Definition twenty_KMeans (k : nat) (X : matrix) : list nat * matrix :=
  match k with
  | 2%nat => (repeat 0%nat 10 ++ repeat 1%nat 10, [])
  | 3%nat => (repeat 0%nat 7 ++ repeat 1%nat 7 ++ repeat 2%nat 6, [])
  | _ => (repeat 0%nat 5 ++ repeat 1%nat 5 ++ repeat 2%nat 5 ++ repeat 3%nat 5, [])
  end.

(** A clustering oracle that puts four points in one class for every k. *)
Definition four_KMeans (k : nat) (X : matrix) : list nat * matrix :=
  (repeat 0%nat 4, []).

(* ================================================================== *)
(** * Facts about the scalar comparisons and the option monad *)

Lemma Rltb_true (x y : R) : Rltb x y = true <-> x < y.
Proof. unfold Rltb. destruct (Rlt_dec x y); split; intros; try easy. Qed.

Lemma Rltb_false (x y : R) : Rltb x y = false <-> y <= x.
Proof.
  unfold Rltb. destruct (Rlt_dec x y); split; intros; try easy; lra.
Qed.

Lemma Reqb_true (x y : R) : Reqb x y = true <-> x = y.
Proof. unfold Reqb. destruct (Req_dec_T x y); split; intros; try easy. Qed.

Lemma Reqb_refl (x : R) : Reqb x x = true.
Proof. now apply Reqb_true. Qed.


(** Decide the float comparisons of a closed term one after the other. *)
Ltac decide_R :=
  repeat match goal with
  | |- context [Rlt_dec ?a ?b] => destruct (Rlt_dec a b); try lra
  | |- context [Req_dec_T ?a ?b] => destruct (Req_dec_T a b); try lra
  end.

Ltac eval_R := repeat (progress (cbn; unfold Rltb, Reqb); decide_R).

(* ================================================================== *)
(** * Facts about the stable sort *)

Section StableSortFacts.
Context {A : Type}.
Variable key : A -> R.

Lemma insert_by_perm (x : A) (l : list A) :
  Permutation (insert_by key x l) (x :: l).
Proof.
  induction l as [|y t IH]; simpl; [reflexivity|].
  destruct (Rltb (key y) (key x)); [|reflexivity].
  rewrite IH. apply perm_swap.
Qed.

Lemma sort_by_perm (l : list A) : Permutation (sort_by key l) l.
Proof.
  induction l as [|x t IH]; simpl; [reflexivity|].
  rewrite insert_by_perm. now constructor.
Qed.

Lemma sort_by_length (l : list A) : length (sort_by key l) = length l.
Proof. apply Permutation_length, sort_by_perm. Qed.

Lemma insert_by_sorted (x : A) (l : list A) :
  StronglySorted (key_le key) l -> StronglySorted (key_le key) (insert_by key x l).
Proof.
  induction 1 as [|y t Hs IH Hy]; simpl.
  - repeat constructor.
  - destruct (Rltb (key y) (key x)) eqn:E.
    + apply Rltb_true in E. constructor; [exact IH|].
      apply (Permutation_Forall (Permutation_sym (insert_by_perm x t))).
      constructor; [unfold key_le; lra | exact Hy].
    + apply Rltb_false in E. constructor; [now constructor|].
      constructor; [exact E|].
      eapply Forall_impl; [|exact Hy]. unfold key_le. intros; lra.
Qed.

Lemma sort_by_sorted (l : list A) : StronglySorted (key_le key) (sort_by key l).
Proof.
  induction l as [|x t IH]; simpl; [constructor|].
  now apply insert_by_sorted.
Qed.



(** With a strict order [before] on the input, the result is sorted by
    key first and by [before] among equal keys. *)
Variable before : A -> A -> Prop.

Lemma insert_by_lex (x : A) (l : list A) :
  Forall (before x) l -> StronglySorted (lex_lt key before) l ->
  StronglySorted (lex_lt key before) (insert_by key x l).
Proof.
  intros Hx Hs. induction Hs as [|y t Hs IH Hy]; simpl.
  - repeat constructor.
  - inversion Hx as [|? ? Hxy Hxt]; subst.
    destruct (Rltb (key y) (key x)) eqn:E.
    + apply Rltb_true in E. constructor; [now apply IH|].
      apply (Permutation_Forall (Permutation_sym (insert_by_perm x t))).
      constructor; [now left | exact Hy].
    + apply Rltb_false in E. constructor; [now constructor|].
      assert (Hxy' : lex_lt key before x y).
      { destruct (Req_dec_T (key x) (key y)); [now right | left; lra]. }
      constructor; [exact Hxy'|].
      rewrite Forall_forall in Hy, Hxt |- *. intros z Hz.
      specialize (Hy z Hz). specialize (Hxt z Hz).
      destruct Hy as [Hy|[Hy _]];
        (destruct (Req_dec_T (key x) (key z)); [now right | left; lra]).
Qed.

Lemma sort_by_lex (l : list A) :
  StronglySorted before l -> StronglySorted (lex_lt key before) (sort_by key l).
Proof.
  induction 1 as [|x t Hs IH Hx]; simpl; [constructor|].
  apply insert_by_lex; [|exact IH].
  apply (Permutation_Forall (Permutation_sym (sort_by_perm t))). exact Hx.
Qed.

(** [sorted(..., reverse=True)]. *)
Lemma sorted_reverse_perm (l : list A) :
  Permutation (sorted_reverse key l) l.
Proof.
  unfold sorted_reverse.
  rewrite <- Permutation_rev, sort_by_perm, <- Permutation_rev.
  reflexivity.
Qed.

End StableSortFacts.

Lemma StronglySorted_snoc {A : Type} (Q : A -> A -> Prop) (l : list A) (x : A) :
  StronglySorted Q l -> Forall (fun a => Q a x) l ->
  StronglySorted Q (l ++ [x]).
Proof.
  induction 1 as [|y u Hu IHu Hy]; simpl; intros Hx.
  - repeat constructor.
  - inversion Hx; subst. constructor; [now apply IHu|].
    apply Forall_app. split; [exact Hy | now repeat constructor].
Qed.

Lemma StronglySorted_rev {A : Type} (P : A -> A -> Prop) (l : list A) :
  StronglySorted P l -> StronglySorted (fun a b => P b a) (rev l).
Proof.
  induction 1 as [|x t Hs IH Hx]; simpl; [constructor|].
  apply StronglySorted_snoc; [exact IH|].
  rewrite Forall_forall in Hx |- *. intros a Ha. apply Hx. now apply in_rev.
Qed.


(* ================================================================== *)
(** * The Centroid Ranker *)

Lemma seq_sorted (start len : nat) : StronglySorted lt (seq start len).
Proof.
  revert start. induction len as [|n IH]; intros start; simpl; constructor.
  - apply IH.
  - apply Forall_forall. intros x Hx. apply in_seq in Hx. lia.
Qed.

Lemma argsort_perm (v : list R) : Permutation (argsort v) (seq 0 (length v)).
Proof. apply sort_by_perm. Qed.

Lemma top_indices_example :
  top_indices [9 / 10; 3 / 10; 6 / 10] = [0; 2; 1]%nat.
Proof.
  unfold top_indices, argsort. eval_R. reflexivity.
Qed.

Lemma top_indices_perm (sims : list R) :
  Permutation (top_indices sims) (seq 0 (length sims)).
Proof. unfold top_indices. rewrite <- Permutation_rev. apply argsort_perm. Qed.

Lemma top_indices_descending (sims : list R) :
  StronglySorted (ranked_descending sims) (top_indices sims).
Proof.
  unfold top_indices, argsort.
  apply (StronglySorted_rev (key_le (fun i => nth i sims 0))), sort_by_sorted.
Qed.

(** Two descending arrangements of the same elements are equal when no two
    of the elements have the same key. *)
Lemma descending_unique {A : Type} (key : A -> R) (l1 l2 : list A) :
  (forall a b, In a l1 -> In b l1 -> key a = key b -> a = b) ->
  Permutation l1 l2 ->
  StronglySorted (key_ge key) l1 -> StronglySorted (key_ge key) l2 ->
  l1 = l2.
Proof.
  revert l2. induction l1 as [|a t IH]; intros l2 Hinj P S1 S2.
  - apply Permutation_nil in P. now subst.
  - destruct l2 as [|b u].
    { apply Permutation_sym, Permutation_nil in P. discriminate. }
    inversion S1 as [|? ? St Ha]; subst. inversion S2 as [|? ? Su Hb]; subst.
    rewrite Forall_forall in Ha, Hb.
    assert (E : a = b).
    { assert (Hab : In a (b :: u))
        by (apply (Permutation_in _ P); now left).
      assert (Hba : In b (a :: t))
        by (apply (Permutation_in _ (Permutation_sym P)); now left).
      destruct Hab as [<-|Hau]; [reflexivity|].
      destruct Hba as [->|Hbt]; [reflexivity|].
      apply Hinj; [now left | now right |].
      specialize (Ha b Hbt). specialize (Hb a Hau). unfold key_ge in Ha, Hb.
      lra. }
    subst b. f_equal. apply IH.
    + intros x y Hx Hy. apply Hinj; now right.
    + now apply Permutation_cons_inv in P.
    + exact St.
    + exact Su.
Qed.

(** Without ties the ranking is the only descending arrangement of the
    indices: it does not depend on how [argsort] sorts. *)
Lemma top_indices_unique (sims : list R) (order : list nat) :
  NoDup sims ->
  Permutation order (seq 0 (length sims)) ->
  StronglySorted (ranked_descending sims) order ->
  order = top_indices sims.
Proof.
  intros Hnd P S.
  apply (descending_unique (fun i => nth i sims 0)).
  - intros i j Hi Hj E.
    apply (Permutation_in _ P), in_seq in Hi.
    apply (Permutation_in _ P), in_seq in Hj.
    apply (proj1 (NoDup_nth sims 0) Hnd); [lia | lia | exact E].
  - rewrite P. apply Permutation_sym, top_indices_perm.
  - exact S.
  - apply top_indices_descending.
Qed.

(** C2 (as stated) fails on ties: for the similarities [0.5, 0.5] the
    ranker returns the indices [1, 0] (an array of two elements is sorted by
    numpy's insertion sort, which leaves the equal values in place, and the
    result is read backwards), which does not keep the original index order
    of the two equal scores. *)
Lemma centroid_ranking_ties_counterexample :
  top_indices [1 / 2; 1 / 2] = [1; 0]%nat /\
  ~ StronglySorted (ranked_stable [1 / 2; 1 / 2]) (top_indices [1 / 2; 1 / 2]).
Proof.
  assert (E : top_indices [1 / 2; 1 / 2] = [1; 0]%nat).
  { unfold top_indices, argsort. eval_R. reflexivity. }
  split; [exact E|]. rewrite E. intros H.
  inversion H as [|? ? _ Hall]; subst.
  inversion Hall as [|? ? H10 _]; subst.
  unfold ranked_stable in H10. simpl in H10.
  destruct H10 as [H10|[_ H10]]; [lra | lia].
Qed.

(* ================================================================== *)
(** * Global scoring *)

Lemma Rlist_min_spec (x0 : R) (l : list R) : is_min (Rlist_min x0 l) (x0 :: l).
Proof.
  unfold Rlist_min. revert x0. induction l as [|y t IH]; intros x0; simpl.
  - split; [now left|]. intros x [Hx|[]]. lra.
  - destruct (IH (Rmin x0 y)) as [Hin Hle].
    remember (fold_left Rmin t (Rmin x0 y)) as m. split.
    + destruct Hin as [Hin|Hin]; [|now right; right].
      destruct (Rle_dec x0 y) as [L|L].
      * rewrite Rmin_left in Hin by lra. now left.
      * rewrite Rmin_right in Hin by lra. right. now left.
    + intros x [Hx|[Hx|Hx]].
      * subst x. specialize (Hle (Rmin x0 y) (or_introl eq_refl)).
        pose proof (Rmin_l x0 y). lra.
      * subst x. specialize (Hle (Rmin x0 y) (or_introl eq_refl)).
        pose proof (Rmin_r x0 y). lra.
      * apply Hle. now right.
Qed.

Lemma Rlist_max_spec (x0 : R) (l : list R) : is_max (Rlist_max x0 l) (x0 :: l).
Proof.
  unfold Rlist_max. revert x0. induction l as [|y t IH]; intros x0; simpl.
  - split; [now left|]. intros x [Hx|[]]. lra.
  - destruct (IH (Rmax x0 y)) as [Hin Hle].
    remember (fold_left Rmax t (Rmax x0 y)) as m. split.
    + destruct Hin as [Hin|Hin]; [|now right; right].
      destruct (Rle_dec x0 y) as [L|L].
      * rewrite Rmax_right in Hin by lra. right. now left.
      * rewrite Rmax_left in Hin by lra. now left.
    + intros x [Hx|[Hx|Hx]].
      * subst x. specialize (Hle (Rmax x0 y) (or_introl eq_refl)).
        pose proof (Rmax_l x0 y). lra.
      * subst x. specialize (Hle (Rmax x0 y) (or_introl eq_refl)).
        pose proof (Rmax_r x0 y). lra.
      * apply Hle. now right.
Qed.

Lemma MinMaxScaler_spec (X : list R) :
  X <> [] ->
  exists lo hi,
    is_min lo X /\ is_max hi X /\
    MinMaxScaler_fit_transform X = Some (map (min_max lo hi) X).
Proof.
  destruct X as [|x0 rest]; [easy|]. intros _.
  pose proof (Rlist_min_spec x0 rest) as Hmin.
  pose proof (Rlist_max_spec x0 rest) as Hmax.
  exists (Rlist_min x0 rest), (Rlist_max x0 rest).
  split; [exact Hmin|]. split; [exact Hmax|].
  unfold MinMaxScaler_fit_transform. f_equal.
  set (lo := Rlist_min x0 rest) in *. set (hi := Rlist_max x0 rest) in *.
  apply map_ext_in. intros x Hx.
  unfold min_max, handle_zeros_in_scale.
  destruct Hmin as [_ Hlo]. destruct Hmax as [_ Hhi].
  specialize (Hlo x Hx). specialize (Hhi x Hx).
  destruct (Req_dec_T (hi - lo) 0), (Req_dec_T lo hi); lra.
Qed.

Lemma map_enumerate {A B : Type} (f : nat -> A -> B) (g : A -> B) (l : list A) :
  (forall i s, nth_error l i = Some s -> f i s = g s) ->
  map (fun '(i, s) => f i s) (combine (seq 0 (length l)) l) = map g l.
Proof.
  intros H.
  assert (G : forall t pre, l = pre ++ t ->
            map (fun '(i, s) => f i s) (combine (seq (length pre) (length t)) t)
            = map g t).
  { induction t as [|a t IH]; intros pre E; [reflexivity|]. simpl. f_equal.
    - apply H. subst l. rewrite nth_error_app2 by lia.
      now rewrite Nat.sub_diag.
    - specialize (IH (pre ++ [a])). rewrite length_app in IH. simpl in IH.
      rewrite Nat.add_1_r in IH. apply IH. now rewrite <- app_assoc. }
  apply (G l []). reflexivity.
Qed.

Lemma compute_ranked_scores_spec (subclusters : list subcluster_stats)
    (sw cw pw : R) :
  subclusters <> [] ->
  exists lo hi,
    is_min lo (map (fun s => INR (size s)) subclusters) /\
    is_max hi (map (fun s => INR (size s)) subclusters) /\
    compute_ranked_scores subclusters sw cw pw
    = Some (map (scored lo hi sw cw pw) subclusters).
Proof.
  intros Hne.
  destruct (MinMaxScaler_spec (map (fun s => INR (size s)) subclusters))
    as (lo & hi & Hlo & Hhi & E).
  { destruct subclusters; [easy | discriminate]. }
  exists lo, hi. split; [exact Hlo|]. split; [exact Hhi|].
  unfold compute_ranked_scores. rewrite E. simpl. f_equal.
  apply map_enumerate. intros i s Hi. unfold scored.
  assert (N : forall (h : subcluster_stats -> R),
             nth i (map h subclusters) 0 = h s).
  { intros h. apply nth_error_nth. now rewrite nth_error_map, Hi. }
  rewrite map_map. rewrite (N (fun s => min_max lo hi (INR (size s)))).
  now rewrite (N cohesion), (N separation).
Qed.

Lemma compute_ranked_scores_empty (sw cw pw : R) :
  compute_ranked_scores [] sw cw pw = None.
Proof. reflexivity. Qed.

Lemma min_max_proper (lo hi x : R) :
  lo < hi -> min_max lo hi x = (x - lo) / (hi - lo).
Proof. intros H. unfold min_max. destruct (Req_dec_T lo hi); [lra | easy]. Qed.

Lemma min_max_degenerate (lo x : R) : min_max lo lo x = 0.
Proof. unfold min_max. destruct (Req_dec_T lo lo); [easy | lra]. Qed.

Lemma in_firstn {A : Type} (x : A) (n : nat) (l : list A) :
  In x (firstn n l) -> In x l.
Proof.
  intros H. rewrite <- (firstn_skipn n l). apply in_or_app. now left.
Qed.

Lemma Some_inj {A : Type} (a b : A) : Some a = Some b -> a = b.
Proof. congruence. Qed.

Lemma select_top_subclusters_eq (acc updated : list subcluster_stats) :
  compute_ranked_scores acc (4 / 10) (12 / 10) (2 / 10) = Some updated ->
  select_top_subclusters acc =
  Some (firstn NUM_FAQs
          (sorted_reverse get_score (filter size_in_bounds updated))).
Proof. intros E. unfold select_top_subclusters. now rewrite E. Qed.

(** C6: on every non-empty accumulator [compute_ranked_scores] returns, and
    each record gets the score
    [size_weight * normalized_size + cohesion_weight * cohesion
     + separation_weight * separation], where [normalized_size] is
    [(size - min) / (max - min)] over the sizes of the whole accumulator and
    cohesion and separation are the record's raw values; the records that
    [select_top_subclusters] returns carry the weights 0.4, 1.2 and 0.2. *)
Theorem composite_score_formula
    (acc : list subcluster_stats) (sw cw pw : R) :
  acc <> [] ->
  exists lo hi out,
    is_min lo (map (fun s => INR (size s)) acc) /\
    is_max hi (map (fun s => INR (size s)) acc) /\
    compute_ranked_scores acc sw cw pw = Some out /\
    Forall2 (fun s s' =>
               exists ns,
                 normalized_size s' = Some ns /\
                 (lo < hi -> ns = (INR (size s) - lo) / (hi - lo)) /\
                 score s' = Some (sw * ns + cw * cohesion s + pw * separation s) /\
                 s' = set_scores s ns
                        (sw * ns + cw * cohesion s + pw * separation s))
            acc out /\
    (forall top, select_top_subclusters acc = Some top ->
       Forall (fun s' =>
                 exists ns,
                   normalized_size s' = Some ns /\
                   score s' = Some (4 / 10 * ns + 12 / 10 * cohesion s'
                                    + 2 / 10 * separation s')) top).
Proof.
  intros Hne.
  destruct (compute_ranked_scores_spec acc sw cw pw Hne)
    as (lo & hi & Hlo & Hhi & E).
  exists lo, hi, (map (scored lo hi sw cw pw) acc).
  split; [exact Hlo|]. split; [exact Hhi|]. split; [exact E|]. split.
  - clear. induction acc as [|s t IH]; simpl; constructor; [|exact IH].
    exists (min_max lo hi (INR (size s))). repeat split.
    intros H. now apply min_max_proper.
  - intros top Htop.
    destruct (compute_ranked_scores_spec acc (4 / 10) (12 / 10) (2 / 10) Hne)
      as (lo' & hi' & _ & _ & E').
    rewrite (select_top_subclusters_eq _ _ E') in Htop.
    apply Some_inj in Htop. subst top. apply Forall_forall. intros s' Hs'.
    pose proof (in_firstn _ _ _ Hs') as Hn.
    apply (Permutation_in _ (sorted_reverse_perm get_score _)) in Hn.
    apply filter_In in Hn as [Hn _]. apply in_map_iff in Hn as (s & <- & _).
    exists (min_max lo' hi' (INR (size s))). split; reflexivity.
Qed.

Lemma composite_score_formula_witness :
  let acc := [plain_stats 0 10 (1 / 2) (1 / 4); plain_stats 1 30 (3 / 4) (1 / 2)] in
  acc <> [] /\
  exists lo hi out,
    is_min lo (map (fun s => INR (size s)) acc) /\
    is_max hi (map (fun s => INR (size s)) acc) /\
    compute_ranked_scores acc 1 1 1 = Some out /\
    Forall2 (fun s s' =>
               exists ns,
                 normalized_size s' = Some ns /\
                 (lo < hi -> ns = (INR (size s) - lo) / (hi - lo)) /\
                 score s' = Some (1 * ns + 1 * cohesion s + 1 * separation s) /\
                 s' = set_scores s ns
                        (1 * ns + 1 * cohesion s + 1 * separation s))
            acc out /\
    (forall top, select_top_subclusters acc = Some top ->
       Forall (fun s' =>
                 exists ns,
                   normalized_size s' = Some ns /\
                   score s' = Some (4 / 10 * ns + 12 / 10 * cohesion s'
                                    + 2 / 10 * separation s')) top).
Proof.
  intros acc. split; [discriminate|].
  apply (composite_score_formula acc 1 1 1). discriminate.
Defined.

(** C10: when all records of a non-empty accumulator have the same size,
    [compute_ranked_scores] gives every record [normalized_size = 0], no
    record passes the lower bound of the size filter, and
    [select_top_subclusters] returns the empty list. *)
Theorem degenerate_sizes_select_nothing
    (acc : list subcluster_stats) (sw cw pw : R) :
  acc <> [] ->
  (forall s s', In s acc -> In s' acc -> size s = size s') ->
  (exists out,
      compute_ranked_scores acc sw cw pw = Some out /\
      length out = length acc /\
      Forall (fun s' => normalized_size s' = Some 0 /\
                        size_in_bounds s' = false) out) /\
  select_top_subclusters acc = Some [].
Proof.
  intros Hne Hsame.
  assert (D : forall sw cw pw,
             compute_ranked_scores acc sw cw pw =
             Some (map (fun s => set_scores s 0
                                   (sw * 0 + cw * cohesion s + pw * separation s))
                       acc)).
  { intros a b c.
    destruct (compute_ranked_scores_spec acc a b c Hne)
      as (lo & hi & [Hlo _] & [Hhi _] & E).
    rewrite E. f_equal. apply map_ext. intros s. unfold scored.
    apply in_map_iff in Hlo as (s1 & <- & H1).
    apply in_map_iff in Hhi as (s2 & <- & H2).
    rewrite (Hsame s2 s1 H2 H1), min_max_degenerate. reflexivity. }
  assert (F : forall s a, size_in_bounds (set_scores s 0 a) = false).
  { intros s a. unfold size_in_bounds, get_normalized_size. simpl.
    apply andb_false_iff. left. apply Rltb_false.
    unfold MIN_SIZE, EPSILON. lra. }
  split.
  - eexists. split; [apply D|]. split; [apply length_map|].
    apply Forall_forall. intros s' Hs'.
    apply in_map_iff in Hs' as (s & <- & _). split; [reflexivity | apply F].
  - rewrite (select_top_subclusters_eq _ _ (D _ _ _)).
    replace (filter size_in_bounds _) with (@nil subcluster_stats);
      [reflexivity|].
    symmetry. clear -F. induction acc as [|s t IH]; [reflexivity|].
    simpl. now rewrite F.
Qed.

Lemma degenerate_sizes_select_nothing_witness :
  let acc := [plain_stats 0 20 (1 / 2) (1 / 4); plain_stats 1 20 (3 / 4) (1 / 2)] in
  acc <> [] /\
  (forall s s', In s acc -> In s' acc -> size s = size s') /\
  (exists out,
      compute_ranked_scores acc (4 / 10) (12 / 10) (2 / 10) = Some out /\
      length out = length acc /\
      Forall (fun s' => normalized_size s' = Some 0 /\
                        size_in_bounds s' = false) out) /\
  select_top_subclusters acc = Some [].
Proof.
  intros acc.
  assert (Hsame : forall s s', In s acc -> In s' acc -> size s = size s').
  { intros s s' [<-|[<-|[]]] [<-|[<-|[]]]; reflexivity. }
  split; [discriminate|]. split; [exact Hsame|].
  apply (degenerate_sizes_select_nothing acc); [discriminate | exact Hsame].
Defined.

(* ================================================================== *)
(** * Global selection *)

Lemma size_in_bounds_iff (s : subcluster_stats) :
  size_in_bounds s = true <->
  MIN_SIZE + EPSILON < get_normalized_size s < MAX_SIZE - EPSILON.
Proof.
  unfold size_in_bounds. rewrite andb_true_iff, !Rltb_true. reflexivity.
Qed.




(* ================================================================== *)
(** * Selection of k *)

Lemma list_max_in (l : list nat) : l <> [] -> In (list_max l) l.
Proof.
  induction l as [|a t IH]; [easy|]. intros _. simpl.
  destruct t as [|b t'].
  - left. simpl. lia.
  - destruct (Nat.max_spec a (list_max (b :: t'))) as [[_ E]|[_ E]].
    + right. change (fold_right Nat.max 0%nat (b :: t')) with (list_max (b :: t')).
      rewrite E. now apply IH.
    + left. change (fold_right Nat.max 0%nat (b :: t')) with (list_max (b :: t')).
      now rewrite E.
Qed.

Lemma list_max_ge (l : list nat) (x : nat) : In x l -> (x <= list_max l)%nat.
Proof.
  intros H. pose proof (proj1 (list_max_le l (list_max l)) (Nat.le_refl _)) as F.
  rewrite Forall_forall in F. now apply F.
Qed.

(** The counts of [np.unique] are the sizes of the label classes. *)
Lemma np_unique_counts_spec (labels : list nat) (c : nat) :
  In c (map snd (np_unique_counts labels)) <->
  exists u, In u labels /\ c = count_occ Nat.eq_dec labels u.
Proof.
  unfold np_unique_counts. rewrite in_map_iff. split.
  - intros ([u c'] & <- & H). apply filter_In in H as [H Hpos].
    apply in_map_iff in H as (u' & E & _). inversion E; subst. simpl in *.
    exists u. split; [|reflexivity].
    apply (count_occ_In Nat.eq_dec). apply Nat.ltb_lt in Hpos. lia.
  - intros (u & Hu & ->). exists (u, count_occ Nat.eq_dec labels u).
    split; [reflexivity|]. apply filter_In. split.
    + apply in_map_iff. exists u. split; [reflexivity|].
      apply in_seq. pose proof (list_max_ge labels u Hu). lia.
    + simpl. apply Nat.ltb_lt. now apply (count_occ_In Nat.eq_dec).
Qed.

Lemma np_unique_counts_nonempty (labels : list nat) :
  labels <> [] -> map snd (np_unique_counts labels) <> [].
Proof.
  destruct labels as [|u t]; [easy|]. intros _ E.
  assert (H : In (count_occ Nat.eq_dec (u :: t) u)
                (map snd (np_unique_counts (u :: t)))).
  { apply np_unique_counts_spec. exists u. split; [now left | reflexivity]. }
  now rewrite E in H.
Qed.

Lemma existsb_too_small (labels : list nat) :
  existsb (fun c => (c <? 5)%nat) (map snd (np_unique_counts labels)) = true
  <-> too_small labels.
Proof.
  rewrite existsb_exists. unfold too_small. split.
  - intros (c & Hc & Hlt). apply np_unique_counts_spec in Hc as (u & Hu & ->).
    exists u. split; [exact Hu|]. now apply Nat.ltb_lt.
  - intros (u & Hu & Hlt). exists (count_occ Nat.eq_dec labels u). split.
    + apply np_unique_counts_spec. now exists u.
    + now apply Nat.ltb_lt.
Qed.

Lemma max_prop_exceeds_iff (counts_max total : nat) :
  max_prop_exceeds counts_max total = true <->
  85 / 100 * INR total < INR counts_max.
Proof.
  unfold max_prop_exceeds. destruct (Nat.eqb_spec total 0) as [->|Hne].
  - rewrite Nat.ltb_lt. simpl. rewrite Rmult_0_r. split; intros H.
    + now apply lt_0_INR.
    + apply INR_lt. now simpl.
  - rewrite Rltb_true.
    assert (Ht : 0 < INR total) by (apply lt_0_INR; lia).
    split; intros H.
    + apply (Rmult_lt_compat_r (INR total)) in H; [|exact Ht].
      unfold Rdiv in H at 2. rewrite Rmult_assoc, Rinv_l in H; lra.
    + apply (Rmult_lt_reg_r (INR total)); [exact Ht|].
      unfold Rdiv at 2. rewrite Rmult_assoc, Rinv_l; lra.
Qed.

Lemma max_prop_too_dominant (labels : list nat) (total : nat) :
  labels <> [] ->
  max_prop_exceeds (list_max (map snd (np_unique_counts labels))) total = true
  <-> too_dominant labels total.
Proof.
  intros Hne. rewrite max_prop_exceeds_iff. unfold too_dominant.
  set (counts := map snd (np_unique_counts labels)). split.
  - intros H.
    pose proof (list_max_in counts (np_unique_counts_nonempty labels Hne)) as Hin.
    apply np_unique_counts_spec in Hin as (u & Hu & E).
    exists u. split; [exact Hu|]. now rewrite <- E.
  - intros (u & Hu & H).
    assert (Hin : In (count_occ Nat.eq_dec labels u) counts).
    { apply np_unique_counts_spec. now exists u. }
    apply list_max_ge in Hin. apply le_INR in Hin. lra.
Qed.

Section BestK.
Variable KMeans : nat -> matrix -> list nat * matrix.
Variable silhouette_score : matrix -> list nat -> R.
Variable X : matrix.
Variable total : nat.

Lemma rejected_iff (k : nat) :
  fst (KMeans k X) <> [] -> rejected KMeans X total k = true <-> violates KMeans X total k.
Proof.
  intros Hne. unfold rejected, violates.
  rewrite orb_true_iff, existsb_too_small, (max_prop_too_dominant _ _ Hne).
  reflexivity.
Qed.

Lemma best_k_step_eq (cs : list (nat * R)) (k : nat) :
  fst (KMeans k X) <> [] ->
  best_k_step KMeans silhouette_score X total cs k =
  Some (if rejected KMeans X total k then cs else cs ++ [(k, silhouette_of KMeans silhouette_score X k)]).
Proof.
  intros Hne. unfold best_k_step, rejected, silhouette_of.
  pose proof (np_unique_counts_nonempty _ Hne) as Hc.
  destruct (map snd (np_unique_counts (fst (KMeans k X)))) as [|c0 cs0];
    [easy|].
  now destruct (_ || _).
Qed.

Lemma best_k_loop_eq (ks : list nat) (cs : list (nat * R)) :
  (forall k, In k ks -> fst (KMeans k X) <> []) ->
  best_k_loop KMeans silhouette_score X total ks cs =
  Some (cs ++ flat_map (fun k => if rejected KMeans X total k then []
                                 else [(k, silhouette_of KMeans silhouette_score X k)]) ks).
Proof.
  revert cs. induction ks as [|k ks IH]; intros cs H; simpl.
  - now rewrite app_nil_r.
  - rewrite best_k_step_eq by (apply H; now left). simpl.
    rewrite IH by (intros k' Hk'; apply H; now right).
    destruct (rejected KMeans X total k); simpl; [reflexivity|].
    now rewrite <- app_assoc.
Qed.

Lemma in_candidates (ks : list nat) (c : nat * R) :
  In c (flat_map (fun k => if rejected KMeans X total k then []
                           else [(k, silhouette_of KMeans silhouette_score X k)]) ks) <->
  In (fst c) ks /\ rejected KMeans X total (fst c) = false /\ snd c = silhouette_of KMeans silhouette_score X (fst c).
Proof.
  rewrite in_flat_map. split.
  - intros (k & Hk & Hc). destruct (rejected KMeans X total k) eqn:E; [easy|].
    destruct Hc as [<-|[]]. simpl. now rewrite E.
  - intros (Hk & E & Hs). exists (fst c). split; [exact Hk|].
    rewrite E. left. destruct c. simpl in *. now rewrite Hs.
Qed.

(** C3: [compute_best_k] returns 1, 2, 3 or 4; a returned k of 2, 3 or 4
    has a partition with no label class below five members and none above
    85% of [total]; 1 is returned exactly when each of 2, 3 and 4 breaks
    one of the two bounds; a returned k other than 1 has the highest mean
    silhouette score among the candidates that keep both bounds. *)
Theorem compute_best_k_spec :
  (forall k, In k [2; 3; 4]%nat -> fst (KMeans k X) <> []) ->
  exists best_k,
    compute_best_k KMeans silhouette_score X total = Some best_k /\
    In best_k [1; 2; 3; 4]%nat /\
    (In best_k [2; 3; 4]%nat -> ~ violates KMeans X total best_k) /\
    (best_k = 1%nat <-> forall k, In k [2; 3; 4]%nat -> violates KMeans X total k) /\
    (best_k <> 1%nat ->
     forall k, In k [2; 3; 4]%nat -> ~ violates KMeans X total k ->
               silhouette_of KMeans silhouette_score X k <= silhouette_of KMeans silhouette_score X best_k).
Proof.
  intros Hne. unfold compute_best_k.
  change (seq 2 3) with [2; 3; 4]%nat.
  rewrite (best_k_loop_eq _ _ Hne). unfold bind. rewrite app_nil_l.
  set (cands := flat_map _ _).
  assert (Hrej : forall k, In k [2; 3; 4]%nat ->
                           rejected KMeans X total k = false <-> ~ violates KMeans X total k).
  { intros k Hk. rewrite <- (rejected_iff k (Hne k Hk)).
    now destruct (rejected KMeans X total k). }
  pose proof (sort_by_perm (fun c : nat * R => - snd c) cands) as P.
  pose proof (sort_by_sorted (fun c : nat * R => - snd c) cands) as S.
  destruct (sort_by (fun c : nat * R => - snd c) cands) as [|c rest] eqn:E.
  - (* no candidate is left *)
    apply Permutation_nil in P.
    assert (Hall : forall k, In k [2; 3; 4]%nat -> violates KMeans X total k).
    { intros k Hk. apply (rejected_iff k (Hne k Hk)).
      destruct (rejected KMeans X total k) eqn:Ek; [reflexivity|]. exfalso.
      assert (Hin : In (k, silhouette_of KMeans silhouette_score X k) cands)
        by (apply in_candidates; simpl; auto).
      now rewrite P in Hin. }
    exists 1%nat. split; [reflexivity|]. split; [now left|].
    split; [intros [H|[H|[H|[]]]]; discriminate|].
    split; [now split | easy].
  - (* the first candidate after the sort *)
    assert (Hc : In c cands) by (apply (Permutation_in _ P); now left).
    apply in_candidates in Hc as (Hk & Hr & Hs).
    exists (fst c). split; [reflexivity|].
    split; [now right|]. split; [intros _; now apply Hrej|].
    assert (Hne1 : fst c <> 1%nat).
    { destruct Hk as [<-|[<-|[<-|[]]]]; discriminate. }
    split.
    + split; [easy|]. intros Hall. exfalso.
      apply (proj1 (Hrej _ Hk) Hr). now apply Hall.
    + intros _ k Hk' Hv.
      assert (Hin : In (k, silhouette_of KMeans silhouette_score X k) (c :: rest)).
      { apply (Permutation_in _ (Permutation_sym P)).
        apply in_candidates. simpl. split; [exact Hk'|].
        split; [now apply Hrej | reflexivity]. }
      inversion S as [|? ? _ Hhd]; subst.
      destruct Hin as [Ec|Hin]; [rewrite Ec; simpl; lra|].
      rewrite Forall_forall in Hhd. specialize (Hhd _ Hin).
      unfold key_le in Hhd. simpl in Hhd. rewrite Hs in Hhd. lra.
Qed.
End BestK.

Lemma compute_best_k_spec_witness :
  let X := repeat [0] 12 in
  let KMeans := twelve_KMeans in
  let silhouette_score := fun (_ : matrix) (_ : list nat) => 1 / 2 in
  (forall k, In k [2; 3; 4]%nat -> fst (KMeans k X) <> []) /\
  exists best_k,
    compute_best_k KMeans silhouette_score X 12 = Some best_k /\
    In best_k [1; 2; 3; 4]%nat /\
    (In best_k [2; 3; 4]%nat -> ~ violates KMeans X 12 best_k) /\
    (best_k = 1%nat <->
     forall k, In k [2; 3; 4]%nat -> violates KMeans X 12 k) /\
    (best_k <> 1%nat ->
     forall k, In k [2; 3; 4]%nat -> ~ violates KMeans X 12 k ->
               silhouette_of KMeans silhouette_score X k
               <= silhouette_of KMeans silhouette_score X best_k).
Proof.
  intros X KMeans silhouette_score.
  assert (H : forall k, In k [2; 3; 4]%nat -> fst (KMeans k X) <> []).
  { intros k [<-|[<-|[<-|[]]]]; discriminate. }
  split; [exact H|].
  apply (compute_best_k_spec KMeans silhouette_score X 12 H).
Defined.

Lemma compute_best_k_twelve (silhouette_score : matrix -> list nat -> R)
    (X : matrix) :
  compute_best_k twelve_KMeans silhouette_score X 12 = Some 2%nat.
Proof.
  unfold compute_best_k, best_k_loop, best_k_step, bind. cbn.
  unfold max_prop_exceeds. eval_R. reflexivity.
Qed.

(* ================================================================== *)
(** * Cosine similarity *)

Lemma dot_self_nonneg (v : vec) : 0 <= dot v v.
Proof. induction v as [|a t IH]; simpl; [lra | nra]. Qed.


Lemma cauchy_schwarz (x y : vec) : dot x y * dot x y <= dot x x * dot y y.
Proof.
  revert y. induction x as [|a x IH]; intros [|b y]; simpl; try lra.
  specialize (IH y).
  pose proof (dot_self_nonneg x) as Hx. pose proof (dot_self_nonneg y) as Hy.
  set (d := dot x y) in *. set (p := dot x x) in *. set (q := dot y y) in *.
  assert (H2 : 2 * (a * b * d) <= a * a * q + b * b * p).
  { destruct (Rle_dec (2 * (a * b * d)) (a * a * q + b * b * p)) as [L|L];
      [exact L|]. exfalso.
    assert (U : 0 <= a * a * q + b * b * p) by nra.
    assert (S1 : (a * b) * (a * b) * (d * d) <= (a * b) * (a * b) * (p * q))
      by (apply Rmult_le_compat_l; nra).
    assert (S2 : 0 <= (a * a * q - b * b * p) * (a * a * q - b * b * p))
      by apply Rle_0_sqr.
    set (w := 2 * (a * b * d)) in *. set (u := a * a * q + b * b * p) in *.
    assert (W : w * w <= u * u) by (unfold w, u; nra).
    assert (G : u < w) by lra.
    assert (G1 : u * u <= u * w) by (apply Rmult_le_compat_l; lra).
    assert (G2 : u * w < w * w) by (apply Rmult_lt_compat_r; lra).
    lra. }
  nra.
Qed.

Lemma dot_scale (c d : R) (x y : vec) :
  dot (map (fun a => a / c) x) (map (fun b => b / d) y) = dot x y / (c * d) .
Proof.
  destruct (Req_dec_T c 0) as [->|Hc].
  { unfold Rdiv. rewrite Rmult_0_l, Rinv_0, Rmult_0_r.
    revert y. induction x as [|a x IH]; intros [|b y]; simpl; try lra.
    rewrite IH. lra. }
  destruct (Req_dec_T d 0) as [->|Hd].
  { unfold Rdiv. rewrite Rmult_0_r, Rinv_0, Rmult_0_r.
    revert y. induction x as [|a x IH]; intros [|b y]; simpl; try lra.
    rewrite IH. lra. }
  revert y. induction x as [|a x IH]; intros [|b y]; simpl;
    try (unfold Rdiv; lra).
  rewrite IH. field. split; assumption.
Qed.

Lemma handle_zeros_nonzero (s : R) : handle_zeros_in_scale s <> 0.
Proof. unfold handle_zeros_in_scale. destruct (Req_dec_T s 0); lra. Qed.

Lemma dot_normalize_row (x y : vec) :
  dot (normalize_row x) (normalize_row y) =
  dot x y / (handle_zeros_in_scale (row_norm x)
             * handle_zeros_in_scale (row_norm y)).
Proof. unfold normalize_row. apply dot_scale. Qed.

Lemma row_norm_sqr (v : vec) : row_norm v * row_norm v = dot v v.
Proof. unfold row_norm. apply sqrt_sqrt, dot_self_nonneg. Qed.

Lemma row_norm_zero (v : vec) : row_norm v = 0 <-> dot v v = 0.
Proof.
  split; intros H.
  - rewrite <- row_norm_sqr, H. lra.
  - unfold row_norm. rewrite H. apply sqrt_0.
Qed.

(** A normalized row has squared length one, or zero for the zero row. *)
Lemma normalize_row_unit (v : vec) :
  dot v v <> 0 -> dot (normalize_row v) (normalize_row v) = 1.
Proof.
  intros H. rewrite dot_normalize_row. unfold handle_zeros_in_scale.
  destruct (Req_dec_T (row_norm v) 0) as [E|E].
  - apply row_norm_zero in E. contradiction.
  - rewrite row_norm_sqr. now field.
Qed.

Lemma normalize_row_self_le (v : vec) :
  dot (normalize_row v) (normalize_row v) <= 1.
Proof.
  destruct (Req_dec_T (dot v v) 0) as [E|E].
  - rewrite dot_normalize_row, E. unfold Rdiv. lra.
  - rewrite normalize_row_unit by assumption. lra.
Qed.

(** The dot product of two normalized rows is a cosine. *)
Lemma dot_normalized_bound (x y : vec) :
  -1 <= dot (normalize_row x) (normalize_row y) <= 1.
Proof.
  pose proof (cauchy_schwarz (normalize_row x) (normalize_row y)) as CS.
  pose proof (normalize_row_self_le x) as Hx.
  pose proof (normalize_row_self_le y) as Hy.
  pose proof (dot_self_nonneg (normalize_row x)) as Px.
  pose proof (dot_self_nonneg (normalize_row y)) as Py.
  set (d := dot (normalize_row x) (normalize_row y)) in *.
  assert (d * d <= 1) by nra. split; nra.
Qed.

(* ================================================================== *)
(** * Cohesion *)


Lemma Rsum_map_minus {A : Type} (g h : A -> R) (l : list A) :
  Rsum (map g l) - Rsum (map h l) = Rsum (map (fun x => g x - h x) l).
Proof. induction l as [|a t IH]; simpl; [lra | rewrite <- IH; lra]. Qed.

Lemma Rsum_map_bounds {A : Type} (g : A -> R) (lo hi : R) (l : list A) :
  (forall x, In x l -> lo <= g x <= hi) ->
  INR (length l) * lo <= Rsum (map g l) <= INR (length l) * hi.
Proof.
  induction l as [|a t IH]; intros H.
  - simpl. lra.
  - assert (Ha : lo <= g a <= hi) by (apply H; now left).
    assert (Ht : INR (length t) * lo <= Rsum (map g t) <= INR (length t) * hi)
      by (apply IH; intros x Hx; apply H; now right).
    change (length (a :: t)) with (S (length t)). rewrite S_INR.
    simpl. lra.
Qed.


(** The diagonal of a matrix of pairwise values. *)
Lemma trace_pairwise {A : Type} (f : A -> A -> R) (L : list A) :
  np_trace (map (fun x => map (f x) L) L) = Rsum (map (fun x => f x x) L).
Proof.
  unfold np_trace.
  assert (G : forall rest pre, L = pre ++ rest ->
            trace_from (length pre) (map (fun x => map (f x) L) rest)
            = Rsum (map (fun x => f x x) rest)).
  { induction rest as [|a t IH]; intros pre E; [reflexivity|]. simpl. f_equal.
    - apply nth_error_nth. rewrite nth_error_map. subst L.
      rewrite nth_error_app2 by lia. now rewrite Nat.sub_diag.
    - specialize (IH (pre ++ [a])). rewrite length_app in IH. simpl in IH.
      rewrite Nat.add_1_r in IH. apply IH. now rewrite <- app_assoc. }
  apply (G L []). reflexivity.
Qed.

Lemma normalize_length (X : matrix) : length (normalize X) = length X.
Proof. apply length_map. Qed.

Lemma normalize_row_idem (v : vec) :
  normalize_row (normalize_row v) = normalize_row v.
Proof.
  assert (H1 : forall w : vec, map (fun a => a / 1) w = w).
  { intros w. rewrite <- (map_id w) at 2. apply map_ext. intros a. lra. }
  unfold normalize_row at 1.
  replace (handle_zeros_in_scale (row_norm (normalize_row v))) with 1;
    [apply H1|].
  unfold handle_zeros_in_scale.
  destruct (Req_dec_T (row_norm (normalize_row v)) 0) as [E|E];
    [reflexivity|].
  assert (Hv : dot v v <> 0).
  { intros H0. apply E. apply row_norm_zero.
    rewrite dot_normalize_row, H0. unfold Rdiv. lra. }
  unfold row_norm. rewrite (normalize_row_unit v Hv). now rewrite sqrt_1.
Qed.

Lemma normalize_idem (X : matrix) : normalize (normalize X) = normalize X.
Proof.
  unfold normalize. rewrite map_map. apply map_ext, normalize_row_idem.
Qed.

(** The code's cohesion is the sum over the members of the similarities to
    the other members, divided by N (N - 1). *)
Lemma compute_cohesion_eq (E : matrix) :
  compute_cohesion E =
  Rsum (map (fun x =>
               Rsum (map (dot x) (normalize (normalize E))) - dot x x)
            (normalize (normalize E)))
  / (INR (length E) * (INR (length E) - 1)).
Proof.
  unfold compute_cohesion, cosine_similarity, np_sum.
  rewrite trace_pairwise, map_map, Rsum_map_minus.
  now rewrite normalize_length.
Qed.





Section Float64Cohesion.
Import PrimFloat.
Local Open Scope float_scope.

End Float64Cohesion.

(* ================================================================== *)
(** * Separation *)

Lemma compute_separation_eq (a b : matrix) :
  compute_separation a b = 1 - mean_cross_similarity a b.
Proof.
  unfold compute_separation, cosine_similarity, np_sum, mean_cross_similarity.
  rewrite !normalize_idem, !normalize_length. do 2 f_equal.
  unfold normalize. rewrite !map_map. f_equal. apply map_ext. intros x.
  now rewrite map_map.
Qed.

Lemma sibling_separations_eq (s : sub_entry) (others : list sub_entry) :
  sibling_separations (sub_id s) (sub_embeddings s) others =
  map (fun o => 1 - mean_cross_similarity (sub_embeddings s) (sub_embeddings o))
      (siblings s others).
Proof.
  induction others as [|o t IH]; [reflexivity|]. simpl.
  destruct (sub_id o =? sub_id s)%nat; simpl; [exact IH|].
  now rewrite IH, compute_separation_eq.
Qed.

Lemma mean_or_zero_siblings (s : sub_entry) (others : list sub_entry) :
  mean_or_zero (sibling_separations (sub_id s) (sub_embeddings s) others) =
  per_sibling_separation s (siblings s others).
Proof.
  rewrite sibling_separations_eq. unfold per_sibling_separation, mean_or_zero.
  destruct (siblings s others) as [|o t]; [reflexivity|].
  unfold np_mean. now rewrite length_map.
Qed.

(* ================================================================== *)
(** * The ranked lists of the Centroid Ranker *)

Lemma centroid_similarities_eq (E : matrix) (c : vec) :
  centroid_similarities E c = map (fun x => cosine x c) E.
Proof.
  unfold centroid_similarities, cosine_similarity, flatten.
  rewrite !normalize_idem. unfold normalize. simpl map at 2.
  induction E as [|x t IH]; [reflexivity|]. simpl. now rewrite IH.
Qed.

Lemma centroid_similarities_length (E : matrix) (c : vec) :
  length (centroid_similarities E c) = length E.
Proof. rewrite centroid_similarities_eq. apply length_map. Qed.

Lemma top_indices_in_range (sims : list R) :
  Forall (fun i => (i < length sims)%nat) (top_indices sims).
Proof.
  apply Forall_forall. intros i Hi. unfold top_indices in Hi.
  apply in_rev in Hi. apply (Permutation_in _ (argsort_perm sims)) in Hi.
  apply in_seq in Hi. lia.
Qed.

Lemma loc_in_range (df : dataframe) (indices : list nat) :
  Forall (fun i => (i < length df)%nat) indices ->
  loc df indices = Some (map (fun i => nth i df no_ticket) indices).
Proof.
  unfold loc. induction 1 as [|i t Hi _ IH]; [reflexivity|]. simpl.
  rewrite IH. destruct (nth_error df i) as [row|] eqn:E.
  - simpl. now rewrite (nth_error_nth _ _ no_ticket E).
  - apply nth_error_None in E. lia.
Qed.

Lemma get_top_entries_by_centroid_eq (E : matrix) (c : vec) (df : dataframe) :
  length E = length df ->
  get_top_entries_by_centroid E c df =
  Some (map issue_summary (ranked_rows E c df),
        dropna (map resolution (ranked_rows E c df))).
Proof.
  intros HL. unfold get_top_entries_by_centroid.
  fold (centroid_similarities E c). rewrite loc_in_range; [reflexivity|].
  rewrite <- HL, <- (centroid_similarities_length E c).
  apply top_indices_in_range.
Qed.

(** C2 (amended): the Centroid Ranker reads the rows of the subcluster at
    the indices [top_indices] of the cosine similarities of the members to
    the centroid; [top_indices] returns every member index once, in
    descending order of similarity; when no two members have the same
    similarity this determines the order, whatever way [argsort] sorts;
    the similarities [0.9, 0.3, 0.6] give the member order [0, 2, 1].
    The order among members of equal similarity is the one [argsort]
    leaves, read backwards, and need not be the original index order: the
    similarities [0.5, 0.5] give [1, 0]. *)
Theorem centroid_ranking_descending :
  (forall E c df,
      length E = length df ->
      centroid_similarities E c = map (fun x => cosine x c) E /\
      get_top_entries_by_centroid E c df =
      Some (map issue_summary (ranked_rows E c df),
            dropna (map resolution (ranked_rows E c df)))) /\
  (forall sims : list R,
      Permutation (top_indices sims) (seq 0 (length sims)) /\
      StronglySorted (ranked_descending sims) (top_indices sims)) /\
  (forall (sims : list R) (order : list nat),
      NoDup sims ->
      Permutation order (seq 0 (length sims)) ->
      StronglySorted (ranked_descending sims) order ->
      order = top_indices sims) /\
  top_indices [9 / 10; 3 / 10; 6 / 10] = [0; 2; 1]%nat /\
  top_indices [1 / 2; 1 / 2] = [1; 0]%nat.
Proof.
  split; [|split; [|split; [|split; [exact top_indices_example|]]]].
  - intros E c df HL. split; [apply centroid_similarities_eq|].
    now apply get_top_entries_by_centroid_eq.
  - intros sims. split; [apply top_indices_perm | apply top_indices_descending].
  - exact top_indices_unique.
  - unfold top_indices, argsort. eval_R. reflexivity.
Qed.

Lemma score_subcluster_eq (cluster_id : nat) (centroids : matrix)
    (subclusters : list sub_entry) (s : sub_entry) :
  (sub_id s < length centroids)%nat ->
  length (sub_embeddings s) = length (sub_df s) ->
  score_subcluster cluster_id centroids subclusters s =
  Some (appended_record cluster_id subclusters s).
Proof.
  intros Hc HL. unfold score_subcluster.
  destruct (nth_error centroids (sub_id s)) as [c|] eqn:E.
  - simpl. rewrite (get_top_entries_by_centroid_eq _ _ _ HL). simpl.
    unfold appended_record. now rewrite mean_or_zero_siblings.
  - apply nth_error_None in E. lia.
Qed.

Lemma row_norm_one : row_norm [1] = 1.
Proof.
  unfold row_norm. simpl. replace (1 * 1 + 0) with 1 by lra. apply sqrt_1.
Qed.

Lemma row_norm_minus_one : row_norm [-1] = 1.
Proof.
  unfold row_norm. simpl. replace (-1 * -1 + 0) with 1 by lra. apply sqrt_1.
Qed.

Lemma handle_zeros_one : handle_zeros_in_scale 1 = 1.
Proof. unfold handle_zeros_in_scale. destruct (Req_dec_T 1 0); lra. Qed.

Lemma cosine_one_one : cosine [1] [1] = 1.
Proof.
  unfold cosine. rewrite dot_normalize_row, row_norm_one, handle_zeros_one.
  simpl. lra.
Qed.

Lemma cosine_one_minus_one : cosine [1] [-1] = -1.
Proof.
  unfold cosine.
  rewrite dot_normalize_row, row_norm_one, row_norm_minus_one, handle_zeros_one.
  simpl. lra.
Qed.

Lemma line_per_sibling :
  per_sibling_separation line_a [line_b; line_c] = 1.
Proof.
  unfold per_sibling_separation, mean_cross_similarity. simpl.
  rewrite cosine_one_one, cosine_one_minus_one. lra.
Qed.

Lemma line_pooled : pooled_separation line_a [line_b; line_c] = 4 / 3.
Proof.
  unfold pooled_separation, mean_cross_similarity. simpl.
  rewrite cosine_one_one, cosine_one_minus_one. lra.
Qed.

Lemma filter_neq_seq_above (j start len : nat) :
  (j < start)%nat ->
  filter (fun i => negb (i =? j)%nat) (seq start len) = seq start len.
Proof.
  revert start. induction len as [|n IH]; intros start H; [reflexivity|].
  simpl. destruct (Nat.eqb_spec start j); [lia|]. simpl. f_equal.
  apply IH. lia.
Qed.

Lemma filter_neq_seq_length (j start len : nat) :
  (start <= j < start + len)%nat ->
  S (length (filter (fun i => negb (i =? j)%nat) (seq start len))) = len.
Proof.
  revert start. induction len as [|n IH]; intros start H; [lia|]. simpl.
  destruct (Nat.eqb_spec start j) as [->|Hne]; simpl.
  - rewrite filter_neq_seq_above by lia. now rewrite length_seq.
  - f_equal. apply IH. lia.
Qed.

(* ================================================================== *)
(** * The partition of a parent cluster *)

Lemma list_sum_map_add {A : Type} (f g : A -> nat) (l : list A) :
  list_sum (map (fun x => f x + g x)%nat l) =
  (list_sum (map f l) + list_sum (map g l))%nat.
Proof. induction l as [|a t IH]; simpl; [reflexivity | rewrite IH; lia]. Qed.

Lemma list_sum_indicator_zero (l start len : nat) :
  (l < start)%nat ->
  list_sum (map (fun j => if (l =? j)%nat then 1 else 0)%nat (seq start len))
  = 0%nat.
Proof.
  revert start. induction len as [|n IH]; intros start H; [reflexivity|].
  simpl. destruct (Nat.eqb_spec l start); [lia|]. apply IH. lia.
Qed.

Lemma list_sum_indicator (l start len : nat) :
  (start <= l < start + len)%nat ->
  list_sum (map (fun j => if (l =? j)%nat then 1 else 0)%nat (seq start len))
  = 1%nat.
Proof.
  revert start. induction len as [|n IH]; intros start H; [lia|]. simpl.
  destruct (Nat.eqb_spec l start) as [->|Hne].
  - rewrite list_sum_indicator_zero by lia. reflexivity.
  - apply IH. lia.
Qed.

(** The number of rows that a label mask selects. *)
Lemma boolean_mask_cons {A : Type} (b : bool) (mask : list bool)
    (x : A) (l : list A) :
  boolean_mask (b :: mask) (x :: l) =
  if b then x :: boolean_mask mask l else boolean_mask mask l.
Proof. unfold boolean_mask. simpl. now destruct b. Qed.

Lemma boolean_mask_lengths {A B : Type} (mask : list bool)
    (l : list A) (l' : list B) :
  length l = length l' ->
  length (boolean_mask mask l) = length (boolean_mask mask l').
Proof.
  revert l l'. induction mask as [|b m IH]; intros [|x l] [|y l'] H;
    try reflexivity; try discriminate.
  rewrite !boolean_mask_cons. injection H as H.
  destruct b; simpl; [f_equal|]; now apply IH.
Qed.

Lemma mask_sizes_sum {A : Type} (labels : list nat) (l : list A) (k : nat) :
  length labels = length l ->
  Forall (fun lab => (lab < k)%nat) labels ->
  list_sum (map (fun sub_id =>
                   length (boolean_mask
                             (map (fun lab => (lab =? sub_id)%nat) labels) l))
                (seq 0 k))
  = length l.
Proof.
  revert l. induction labels as [|lab labels IH]; intros [|x l] HL HF;
    try discriminate.
  - simpl. induction (seq 0 k) as [|a t IHs]; [reflexivity | exact IHs].
  - injection HL as HL. inversion HF as [|? ? Hlab HF']; subst.
    rewrite (map_ext _ (fun sub_id =>
               (if (lab =? sub_id)%nat then 1 else 0)
               + length (boolean_mask
                           (map (fun lab0 => (lab0 =? sub_id)%nat) labels) l))%nat).
    + rewrite list_sum_map_add, list_sum_indicator by lia.
      rewrite (IH l HL HF'). reflexivity.
    + intros j. simpl map. rewrite boolean_mask_cons.
      now destruct (lab =? j)%nat.
Qed.

Lemma first_pass_length (df : dataframe) (E : matrix) (labels : list nat)
    (k : nat) :
  length (first_pass df E labels k) = k.
Proof. unfold first_pass. now rewrite length_map, length_seq. Qed.

Lemma in_first_pass (df : dataframe) (E : matrix) (labels : list nat)
    (k : nat) (s : sub_entry) :
  In s (first_pass df E labels k) ->
  (sub_id s < k)%nat /\
  sub_df s = boolean_mask (map (fun l => (l =? sub_id s)%nat) labels) df /\
  sub_embeddings s =
    boolean_mask (map (fun l => (l =? sub_id s)%nat) labels) E.
Proof.
  unfold first_pass. intros H. apply in_map_iff in H as (j & <- & Hj).
  apply in_seq in Hj. simpl. split; [lia | split; reflexivity].
Qed.

Lemma siblings_first_pass (df : dataframe) (E : matrix) (labels : list nat)
    (k : nat) (s : sub_entry) :
  In s (first_pass df E labels k) ->
  S (length (siblings s (first_pass df E labels k))) = k.
Proof.
  intros H. apply in_first_pass in H as (Hk & _). unfold siblings, first_pass.
  rewrite <- (filter_neq_seq_length (sub_id s) 0 k) at 2 by lia. f_equal.
  generalize (seq 0 k). intros l. induction l as [|a t IH]; [reflexivity|].
  simpl. destruct (a =? sub_id s)%nat; simpl; now rewrite IH.
Qed.

(** C7: the separation of the record appended for a subcluster is the
    arithmetic mean, over its siblings taken one at a time, of one minus
    the mean cross cosine similarity against that sibling, and 0 when it
    has no sibling; a subcluster of a parent cluster cut in k has k - 1
    siblings; this is not the pooled mean over all cross pairs: for
    a member at 1 with a sibling of one member at 1 and a sibling of two
    members at -1 the code gives 1 where the pooled formula gives 4/3. *)
Theorem separation_mean_over_siblings :
  (forall cluster_id centroids subclusters s,
      (sub_id s < length centroids)%nat ->
      length (sub_embeddings s) = length (sub_df s) ->
      exists r,
        score_subcluster cluster_id centroids subclusters s = Some r /\
        (siblings s subclusters = [] -> separation r = 0) /\
        (siblings s subclusters <> [] ->
         separation r =
         Rsum (map (fun o => 1 - mean_cross_similarity (sub_embeddings s)
                                                       (sub_embeddings o))
                   (siblings s subclusters))
         / INR (length (siblings s subclusters)))) /\
  (forall df E labels k s,
      In s (first_pass df E labels k) ->
      S (length (siblings s (first_pass df E labels k))) = k) /\
  (exists r,
      score_subcluster 0 [[1]; [1]; [-1]] [line_a; line_b; line_c] line_a
      = Some r /\
      separation r = 1 /\
      pooled_separation line_a (siblings line_a [line_a; line_b; line_c])
      = 4 / 3).
Proof.
  split.
  - intros cluster_id centroids subclusters s Hc HL.
    exists (appended_record cluster_id subclusters s).
    split; [now apply score_subcluster_eq|]. simpl.
    unfold per_sibling_separation.
    destruct (siblings s subclusters) as [|o t]; split; easy.
  - split; [exact siblings_first_pass|].
    exists (appended_record 0 [line_a; line_b; line_c] line_a).
    split; [apply score_subcluster_eq; simpl; lia|].
    split; [exact line_per_sibling | exact line_pooled].
Qed.

Lemma mapM_appended (cluster_id : nat) (centroids : matrix)
    (subclusters l : list sub_entry) :
  (forall s, In s l ->
             (sub_id s < length centroids)%nat /\
             length (sub_embeddings s) = length (sub_df s)) ->
  mapM (score_subcluster cluster_id centroids subclusters) l =
  Some (map (appended_record cluster_id subclusters) l).
Proof.
  induction l as [|s t IH]; intros H; [reflexivity|]. simpl.
  destruct (H s (or_introl eq_refl)) as [Hc HL].
  rewrite (score_subcluster_eq _ _ _ _ Hc HL). simpl.
  rewrite IH by (intros s' Hs'; apply H; now right). reflexivity.
Qed.

Section ParentCluster.
Variable encode_reduce : list string -> matrix.
Variable KMeans : nat -> matrix -> list nat * matrix.
Variable silhouette_score : matrix -> list nat -> R.
Variable cluster_id : nat.
Variable cluster_df : dataframe.

Lemma process_cluster_eq (k : nat) :
  compute_best_k KMeans silhouette_score (parent_embeddings encode_reduce cluster_df) (length cluster_df)
  = Some k ->
  k <> 1%nat ->
  KMeans_contract encode_reduce KMeans cluster_df k ->
  process_cluster encode_reduce KMeans silhouette_score cluster_id cluster_df
  = Some (map (appended_record cluster_id (parent_subclusters encode_reduce KMeans cluster_df k))
              (parent_subclusters encode_reduce KMeans cluster_df k)).
Proof.
  intros Hk Hk1 (HE & HL & HF & HC). unfold process_cluster.
  fold (parent_embeddings encode_reduce cluster_df). rewrite Hk. simpl.
  destruct (Nat.eqb_spec k 1) as [|_]; [contradiction|].
  fold (parent_subclusters encode_reduce KMeans cluster_df k). apply mapM_appended.
  intros s Hs. apply in_first_pass in Hs as (Hid & Hdf & Hemb).
  split; [now rewrite HC|]. rewrite Hdf, Hemb.
  apply boolean_mask_lengths. exact HE.
Qed.

(** C9: when a parent cluster is partitioned ([k] other than 1), and the
    clustering gives every vector a label below [k], the pipeline makes
    [k] records, every row of the parent cluster is selected by the mask
    of exactly one subcluster, and the sizes of the [k] records add up to
    the number of rows of the parent cluster. *)
Theorem partition_complete (k : nat) :
  compute_best_k KMeans silhouette_score (parent_embeddings encode_reduce cluster_df) (length cluster_df)
  = Some k ->
  k <> 1%nat ->
  KMeans_contract encode_reduce KMeans cluster_df k ->
  exists records,
    process_cluster encode_reduce KMeans silhouette_score cluster_id cluster_df
    = Some records /\
    length records = k /\
    map subcluster_id records = seq 0 k /\
    list_sum (map size records) = length cluster_df /\
    (forall i, (i < length cluster_df)%nat ->
       exists! sub_id,
         In sub_id (seq 0 k) /\
         nth i (map (fun l => (l =? sub_id)%nat)
                    (fst (KMeans k (parent_embeddings encode_reduce cluster_df)))) false = true).
Proof.
  intros Hk Hk1 HC. pose proof HC as (HE & HL & HF & HN).
  eexists. split; [exact (process_cluster_eq k Hk Hk1 HC)|].
  unfold parent_subclusters, first_pass. rewrite !map_map. simpl.
  split; [now rewrite length_map, length_seq|].
  split; [apply map_id|]. split.
  - now apply mask_sizes_sum.
  - intros i Hi. set (labels := fst (KMeans k (parent_embeddings encode_reduce cluster_df))) in *.
    assert (Hnth : forall j,
               nth i (map (fun l => (l =? j)%nat) labels) false
               = (nth i labels 0 =? j)%nat).
    { intros j. rewrite <- HL in Hi.
      rewrite (nth_indep _ false ((0 =? j)%nat))
        by (now rewrite length_map).
      apply (map_nth (fun l => (l =? j)%nat)). }
    exists (nth i labels 0%nat). split.
    + split; [|rewrite Hnth; apply Nat.eqb_refl].
      apply in_seq. rewrite Forall_forall in HF.
      assert (nth i labels 0 < k)%nat by (apply HF, nth_In; lia). lia.
    + intros j [_ Hj]. rewrite Hnth in Hj. now apply Nat.eqb_eq in Hj.
Qed.
End ParentCluster.

(* ================================================================== *)
(** * A parent cluster of twelve tickets *)

Lemma twelve_contract :
  KMeans_contract twelve_encode twelve_KMeans twelve_tickets 2.
Proof.
  unfold KMeans_contract, parent_embeddings. simpl.
  repeat split; repeat constructor.
Qed.

Lemma partition_complete_witness :
  compute_best_k twelve_KMeans twelve_silhouette
    (parent_embeddings twelve_encode twelve_tickets) (length twelve_tickets)
  = Some 2%nat /\
  2%nat <> 1%nat /\
  KMeans_contract twelve_encode twelve_KMeans twelve_tickets 2 /\
  exists records,
    process_cluster twelve_encode twelve_KMeans twelve_silhouette 7
      twelve_tickets = Some records /\
    length records = 2%nat /\
    map subcluster_id records = seq 0 2 /\
    list_sum (map size records) = length twelve_tickets /\
    (forall i, (i < length twelve_tickets)%nat ->
       exists! sub_id,
         In sub_id (seq 0 2) /\
         nth i (map (fun l => (l =? sub_id)%nat)
                    (fst (twelve_KMeans 2
                            (parent_embeddings twelve_encode twelve_tickets))))
             false = true).
Proof.
  assert (H1 : compute_best_k twelve_KMeans twelve_silhouette
                 (parent_embeddings twelve_encode twelve_tickets)
                 (length twelve_tickets) = Some 2%nat)
    by apply compute_best_k_twelve.
  assert (H2 : 2%nat <> 1%nat) by discriminate.
  split; [exact H1|]. split; [exact H2|]. split; [exact twelve_contract|].
  exact (partition_complete twelve_encode twelve_KMeans twelve_silhouette 7
           twelve_tickets 2 H1 H2 twelve_contract).
Defined.

Lemma cosine_to_axis (a b n : R) :
  0 < n -> a * a + b * b = n * n -> cosine [a; b] [1; 0] = a / n.
Proof.
  intros Hn E. unfold cosine. rewrite dot_normalize_row.
  assert (Na : row_norm [a; b] = n).
  { unfold row_norm. simpl. replace (a * a + (b * b + 0)) with (n * n) by lra.
    apply sqrt_square. lra. }
  assert (N1 : row_norm [1; 0] = 1).
  { unfold row_norm. simpl. replace (1 * 1 + (0 * 0 + 0)) with 1 by lra.
    apply sqrt_1. }
  rewrite Na, N1, handle_zeros_one. unfold handle_zeros_in_scale.
  destruct (Req_dec_T n 0); [lra|]. simpl. field. lra.
Qed.

Lemma twelve_similarities :
  centroid_similarities [[3; 4]; [4; 3]; [1; 0]; [0; 1]; [5; 12]; [12; 5]] [1; 0]
  = [3 / 5; 4 / 5; 1 / 1; 0 / 1; 5 / 13; 12 / 13].
Proof.
  rewrite centroid_similarities_eq. simpl.
  rewrite (cosine_to_axis 3 4 5), (cosine_to_axis 4 3 5),
    (cosine_to_axis 1 0 1), (cosine_to_axis 0 1 1),
    (cosine_to_axis 5 12 13), (cosine_to_axis 12 5 13) by lra.
  reflexivity.
Qed.

Lemma twelve_ranking :
  top_indices [3 / 5; 4 / 5; 1 / 1; 0 / 1; 5 / 13; 12 / 13]
  = [2; 5; 1; 0; 4; 3]%nat.
Proof. unfold top_indices, argsort. eval_R. reflexivity. Qed.

Lemma twelve_subclusters :
  parent_subclusters twelve_encode twelve_KMeans twelve_tickets 2 =
  [ mk_sub_entry 0 (firstn 6 twelve_tickets)
      [[3; 4]; [4; 3]; [1; 0]; [0; 1]; [5; 12]; [12; 5]];
    mk_sub_entry 1 (skipn 6 twelve_tickets)
      [[-1; 0]; [-1; 0]; [-1; 0]; [-1; 0]; [-1; 0]; [-1; 0]] ].
Proof. reflexivity. Qed.

(** C1 does not hold of the code: for the parent cluster of twelve tickets
    the record appended for subcluster 0 stores the summaries and the
    resolutions in the order of the rows, while the Centroid Ranker, called
    on the same subcluster, returns them most representative first; its
    result is dropped. *)
Theorem promoted_lists_not_ranked :
  exists r0 r1,
    generate_subclusters twelve_encode twelve_KMeans twelve_silhouette
      [(7%nat, twelve_tickets)] = Some [r0; r1] /\
    summaries r0 = ["t0"; "t1"; "t2"; "t3"; "t4"; "t5"]%string /\
    resolutions r0 = ["r0"; "r2"; "r3"; "r5"]%string /\
    get_top_entries_by_centroid (embeddings r0) [1; 0] (firstn 6 twelve_tickets)
    = Some (["t2"; "t5"; "t1"; "t0"; "t4"; "t3"]%string,
            ["r2"; "r5"; "r0"; "r3"]%string).
Proof.
  eexists. eexists. split.
  - unfold generate_subclusters, process_clusters.
    assert (H2 : 2%nat <> 1%nat) by discriminate.
    rewrite (process_cluster_eq twelve_encode twelve_KMeans twelve_silhouette
               7 twelve_tickets 2 (compute_best_k_twelve _ _) H2
               twelve_contract).
    rewrite twelve_subclusters. unfold bind. simpl map. simpl app.
    reflexivity.
  - split; [reflexivity|]. split; [reflexivity|]. simpl embeddings.
    rewrite get_top_entries_by_centroid_eq by reflexivity.
    unfold ranked_rows. rewrite twelve_similarities, twelve_ranking.
    reflexivity.
Qed.


(* ================================================================== *)
(** * Further properties of the global scoring and selection *)

Lemma is_min_unique (l : list R) (a b : R) : is_min a l -> is_min b l -> a = b.
Proof.
  intros [Ha La] [Hb Lb]. specialize (La b Hb). specialize (Lb a Ha). lra.
Qed.

Lemma is_max_unique (l : list R) (a b : R) : is_max a l -> is_max b l -> a = b.
Proof.
  intros [Ha La] [Hb Lb]. specialize (La b Hb). specialize (Lb a Ha). lra.
Qed.

Lemma min_max_unit (lo hi x : R) :
  lo <= x <= hi -> 0 <= min_max lo hi x <= 1.
Proof.
  intros H. unfold min_max. destruct (Req_dec_T lo hi) as [E|E]; [lra|].
  assert (Hr : 0 < hi - lo) by lra. split.
  - apply Rmult_le_pos; [lra|]. left. now apply Rinv_0_lt_compat.
  - apply (Rmult_le_reg_r (hi - lo)); [exact Hr|].
    unfold Rdiv. rewrite Rmult_assoc, Rinv_l by lra. lra.
Qed.

Lemma min_max_zero_iff (lo hi x : R) :
  lo < hi -> min_max lo hi x = 0 <-> x = lo.
Proof.
  intros H. rewrite min_max_proper by exact H. split; intros E.
  - apply (Rmult_eq_compat_r (hi - lo)) in E.
    unfold Rdiv in E. rewrite Rmult_assoc, Rinv_l in E by lra. lra.
  - subst x. unfold Rdiv. lra.
Qed.

Lemma min_max_one_iff (lo hi x : R) :
  lo < hi -> min_max lo hi x = 1 <-> x = hi.
Proof.
  intros H. rewrite min_max_proper by exact H. split; intros E.
  - apply (Rmult_eq_compat_r (hi - lo)) in E.
    unfold Rdiv in E. rewrite Rmult_assoc, Rinv_l in E by lra. lra.
  - subst x. unfold Rdiv. rewrite Rinv_r; lra.
Qed.

(** X1: in exact arithmetic (floats as exact reals), after
    [compute_ranked_scores] every record has a [normalized_size] between 0
    and 1; when the sizes are not all equal it is 0 exactly for the
    records of the smallest size and 1 exactly for the records of the
    largest size.  (In binary64 the largest can miss 1 by a rounding:
    [normalized_size_float64_largest].) *)
Theorem normalized_size_unit_interval
    (acc : list subcluster_stats) (sw cw pw : R) :
  acc <> [] ->
  exists lo hi out,
    is_min lo (map (fun s => INR (size s)) acc) /\
    is_max hi (map (fun s => INR (size s)) acc) /\
    compute_ranked_scores acc sw cw pw = Some out /\
    Forall2 (fun s s' =>
               exists ns,
                 normalized_size s' = Some ns /\
                 0 <= ns <= 1 /\
                 (lo < hi -> (ns = 0 <-> INR (size s) = lo) /\
                             (ns = 1 <-> INR (size s) = hi)))
            acc out.
Proof.
  intros Hne.
  destruct (compute_ranked_scores_spec acc sw cw pw Hne)
    as (lo & hi & Hlo & Hhi & E).
  exists lo, hi, (map (scored lo hi sw cw pw) acc).
  split; [exact Hlo|]. split; [exact Hhi|]. split; [exact E|].
  destruct Hlo as [_ Hlo]. destruct Hhi as [_ Hhi].
  assert (B : forall s, In s acc -> lo <= INR (size s) <= hi).
  { intros s Hs. split; [apply Hlo | apply Hhi];
      apply in_map_iff; now exists s. }
  clear E Hlo Hhi Hne. induction acc as [|s t IH]; simpl; constructor.
  - exists (min_max lo hi (INR (size s))). split; [reflexivity|].
    split; [apply min_max_unit, B; now left|].
    intros H. split; [now apply min_max_zero_iff | now apply min_max_one_iff].
  - apply IH. intros s' Hs'. apply B. now right.
Qed.

Lemma normalized_size_unit_interval_witness :
  three_stats <> [] /\
  exists lo hi out,
    is_min lo (map (fun s => INR (size s)) three_stats) /\
    is_max hi (map (fun s => INR (size s)) three_stats) /\
    compute_ranked_scores three_stats 1 1 1 = Some out /\
    Forall2 (fun s s' =>
               exists ns,
                 normalized_size s' = Some ns /\
                 0 <= ns <= 1 /\
                 (lo < hi -> (ns = 0 <-> INR (size s) = lo) /\
                             (ns = 1 <-> INR (size s) = hi)))
            three_stats out.
Proof.
  split; [discriminate|].
  apply (normalized_size_unit_interval three_stats 1 1 1). discriminate.
Defined.

Section Float64Sizes.
Import PrimFloat.
Local Open Scope float_scope.

(** In binary64 the smallest size is normalized to 0.0, and the largest to
    a neighbour of 1.0: 1.0000000000000002 for the sizes 5 and 70,
    0.9999999999999998 for the sizes 5 and 14. *)
Lemma normalized_size_float64_largest :
  Float64.MinMaxScaler_fit_transform [5; 70]
  = Some [0; 0x1.0000000000001p+0] /\
  Float64.MinMaxScaler_fit_transform [5; 14]
  = Some [0; 0x1.ffffffffffffep-1].
Proof. vm_compute. split; reflexivity. Qed.
End Float64Sizes.

Lemma three_stats_scored (sw cw pw : R) :
  compute_ranked_scores three_stats sw cw pw =
  Some (map (scored 10 30 sw cw pw) three_stats).
Proof.
  assert (Hne : three_stats <> []) by discriminate.
  destruct (compute_ranked_scores_spec three_stats sw cw pw Hne)
    as (lo & hi & Hlo & Hhi & E).
  assert (Elo : lo = 10).
  { apply (is_min_unique _ _ _ Hlo). simpl. split; [left; lra|].
    intros x [<-|[<-|[<-|[]]]]; lra. }
  assert (Ehi : hi = 30).
  { apply (is_max_unique _ _ _ Hhi). simpl. split; [right; right; left; lra|].
    intros x [<-|[<-|[<-|[]]]]; lra. }
  now rewrite E, Elo, Ehi.
Qed.

Lemma three_stats_selected :
  select_top_subclusters three_stats =
  Some [scored 10 30 (4 / 10) (12 / 10) (2 / 10)
          (plain_stats 1 20 (3 / 4) (1 / 2))].
Proof.
  rewrite (select_top_subclusters_eq _ _ (three_stats_scored _ _ _)).
  unfold three_stats, size_in_bounds, get_normalized_size, scored, min_max,
    MIN_SIZE, MAX_SIZE, EPSILON, sorted_reverse.
  eval_R. reflexivity.
Qed.

Lemma scored_size (lo hi sw cw pw : R) (s : subcluster_stats) :
  size (scored lo hi sw cw pw s) = size s.
Proof. reflexivity. Qed.

(** X2: [select_top_subclusters] never returns a record whose size is the
    smallest or the largest of the accumulator: the size of every record
    it returns lies strictly between the two. *)
Theorem selection_excludes_extremes (acc : list subcluster_stats) :
  acc <> [] ->
  exists lo hi out,
    is_min lo (map (fun s => INR (size s)) acc) /\
    is_max hi (map (fun s => INR (size s)) acc) /\
    select_top_subclusters acc = Some out /\
    Forall (fun s' => lo < INR (size s') < hi) out.
Proof.
  intros Hne.
  destruct (compute_ranked_scores_spec acc (4 / 10) (12 / 10) (2 / 10) Hne)
    as (lo & hi & Hlo & Hhi & E).
  exists lo, hi. eexists.
  split; [exact Hlo|]. split; [exact Hhi|].
  split; [exact (select_top_subclusters_eq _ _ E)|].
  apply Forall_forall. intros s' Hs'. apply in_firstn in Hs'.
  apply (Permutation_in _ (sorted_reverse_perm get_score _)) in Hs'.
  apply filter_In in Hs' as [Hin Hb]. apply size_in_bounds_iff in Hb.
  apply in_map_iff in Hin as (s & <- & Hs).
  rewrite scored_size. unfold get_normalized_size, scored in Hb. simpl in Hb.
  assert (B : lo <= INR (size s) <= hi).
  { destruct Hlo as [_ Hlo]. destruct Hhi as [_ Hhi].
    split; [apply Hlo | apply Hhi]; apply in_map_iff; now exists s. }
  unfold MIN_SIZE, MAX_SIZE, EPSILON in Hb.
  destruct (Req_dec_T lo hi) as [Eq|Ne].
  - subst hi. rewrite min_max_degenerate in Hb. lra.
  - assert (Hlt : lo < hi) by lra.
    destruct (Req_dec_T (INR (size s)) lo) as [E0|N0].
    { apply (min_max_zero_iff lo hi _ Hlt) in E0. lra. }
    destruct (Req_dec_T (INR (size s)) hi) as [E1|N1].
    { apply (min_max_one_iff lo hi _ Hlt) in E1. lra. }
    lra.
Qed.

Lemma selection_excludes_extremes_witness :
  three_stats <> [] /\
  select_top_subclusters three_stats =
    Some [scored 10 30 (4 / 10) (12 / 10) (2 / 10)
            (plain_stats 1 20 (3 / 4) (1 / 2))] /\
  exists lo hi out,
    is_min lo (map (fun s => INR (size s)) three_stats) /\
    is_max hi (map (fun s => INR (size s)) three_stats) /\
    select_top_subclusters three_stats = Some out /\
    Forall (fun s' => lo < INR (size s') < hi) out.
Proof.
  split; [discriminate|]. split; [exact three_stats_selected|].
  apply (selection_excludes_extremes three_stats). discriminate.
Defined.

(** X3: [select_top_subclusters] raises exactly on the empty accumulator
    (scikit-learn rejects a column without samples); on every other
    accumulator it returns a list. *)
Theorem selection_raises_iff_empty (acc : list subcluster_stats) :
  select_top_subclusters acc = None <-> acc = [].
Proof.
  split.
  - intros H. destruct acc as [|s t]; [reflexivity|]. exfalso.
    assert (Hne : s :: t <> []) by discriminate.
    destruct (compute_ranked_scores_spec _ (4 / 10) (12 / 10) (2 / 10) Hne)
      as (lo & hi & _ & _ & E).
    rewrite (select_top_subclusters_eq _ _ E) in H. discriminate.
  - intros ->. reflexivity.
Qed.

Lemma scored_idempotent (lo hi sw cw pw : R) (s : subcluster_stats) :
  scored lo hi sw cw pw (scored lo hi sw cw pw s) = scored lo hi sw cw pw s.
Proof. reflexivity. Qed.

(** X4: the scoring can be repeated: [compute_ranked_scores] applied to the
    records it has already scored returns the same records, and
    [select_top_subclusters] on the scored accumulator returns the same
    short list as on the accumulator it was scored from. *)
Theorem scoring_idempotent (acc : list subcluster_stats) :
  acc <> [] ->
  exists updated,
    compute_ranked_scores acc (4 / 10) (12 / 10) (2 / 10) = Some updated /\
    compute_ranked_scores updated (4 / 10) (12 / 10) (2 / 10) = Some updated /\
    select_top_subclusters updated = select_top_subclusters acc.
Proof.
  intros Hne.
  destruct (compute_ranked_scores_spec acc (4 / 10) (12 / 10) (2 / 10) Hne)
    as (lo & hi & Hlo & Hhi & E).
  set (updated := map (scored lo hi (4 / 10) (12 / 10) (2 / 10)) acc) in *.
  assert (Hne' : updated <> []).
  { unfold updated. destruct acc; [easy | discriminate]. }
  assert (Hsz : map (fun s => INR (size s)) updated
                = map (fun s => INR (size s)) acc).
  { unfold updated. rewrite map_map. reflexivity. }
  destruct (compute_ranked_scores_spec updated (4 / 10) (12 / 10) (2 / 10) Hne')
    as (lo' & hi' & Hlo' & Hhi' & E').
  rewrite Hsz in Hlo', Hhi'.
  rewrite (is_min_unique _ _ _ Hlo' Hlo), (is_max_unique _ _ _ Hhi' Hhi) in E'.
  assert (Eu : map (scored lo hi (4 / 10) (12 / 10) (2 / 10)) updated = updated).
  { unfold updated. rewrite map_map. apply map_ext. intros s.
    apply scored_idempotent. }
  rewrite Eu in E'.
  exists updated. split; [exact E|]. split; [exact E'|].
  now rewrite (select_top_subclusters_eq _ _ E),
    (select_top_subclusters_eq _ _ E').
Qed.

Lemma scoring_idempotent_witness :
  three_stats <> [] /\
  exists updated,
    compute_ranked_scores three_stats (4 / 10) (12 / 10) (2 / 10)
    = Some updated /\
    compute_ranked_scores updated (4 / 10) (12 / 10) (2 / 10) = Some updated /\
    select_top_subclusters updated = select_top_subclusters three_stats.
Proof.
  split; [discriminate|].
  apply (scoring_idempotent three_stats). discriminate.
Defined.

(* ================================================================== *)
(** * Further properties of the Centroid Ranker *)

Lemma mapM_none {A B : Type} (f : A -> option B) (l : list A) (a : A) :
  In a l -> f a = None -> mapM f l = None.
Proof.
  induction l as [|x t IH]; [easy|]. intros [->|Hin] Ha; simpl.
  - now rewrite Ha.
  - destruct (f x); [|reflexivity]. simpl. now rewrite (IH Hin Ha).
Qed.

Lemma map_nth_seq {A : Type} (d : A) (l : list A) :
  map (fun i => nth i l d) (seq 0 (length l)) = l.
Proof.
  induction l as [|a t IH]; [reflexivity|]. simpl. f_equal.
  rewrite <- seq_shift, map_map. exact IH.
Qed.

Lemma ranked_rows_perm (E : matrix) (c : vec) (df : dataframe) :
  length E = length df -> Permutation (ranked_rows E c df) df.
Proof.
  intros HL. unfold ranked_rows.
  apply Permutation_trans
    with (map (fun i => nth i df no_ticket) (seq 0 (length df))).
  - apply Permutation_map. unfold top_indices. rewrite <- Permutation_rev.
    rewrite <- HL, <- (centroid_similarities_length E c). apply argsort_perm.
  - now rewrite map_nth_seq.
Qed.

(** X5: on an array of embeddings and a centroid of its dimension,
    [get_top_entries_by_centroid] raises exactly when there are more
    embedding vectors than rows ([df.loc] meets an absent label); with at
    most as many vectors as rows it returns. *)
Theorem ranker_raises_iff_more_vectors (d : nat) (E : matrix) (c : vec)
    (df : dataframe) :
  is_array d E -> length c = d ->
  (get_top_entries_by_centroid E c df = None <-> (length df < length E)%nat).
Proof.
  intros _ _. unfold get_top_entries_by_centroid. fold (centroid_similarities E c).
  split.
  - intros H. destruct (Nat.lt_ge_cases (length df) (length E)) as [L|L];
      [exact L|]. exfalso.
    rewrite loc_in_range in H; [discriminate|].
    eapply Forall_impl; [|apply top_indices_in_range].
    intros i Hi. rewrite centroid_similarities_length in Hi. lia.
  - intros L. unfold loc.
    rewrite (mapM_none _ _ (length df)); [reflexivity| |].
    + unfold top_indices. apply in_rev. rewrite rev_involutive.
      apply (Permutation_in _ (Permutation_sym (argsort_perm _))).
      apply in_seq. rewrite centroid_similarities_length. lia.
    + apply nth_error_None. lia.
Qed.

Lemma six_vectors_array :
  is_array 2 [[3; 4]; [4; 3]; [1; 0]; [0; 1]; [5; 12]; [12; 5]].
Proof.
  split; [discriminate|]. split; [lia|]. repeat constructor.
Qed.

Lemma ranker_raises_iff_more_vectors_witness :
  let E := [[3; 4]; [4; 3]; [1; 0]; [0; 1]; [5; 12]; [12; 5]] in
  let df := firstn 5 twelve_tickets in
  is_array 2 E /\ length [1; 0] = 2%nat /\
  (get_top_entries_by_centroid E [1; 0] df = None <->
   (length df < length E)%nat).
Proof.
  intros E df. split; [exact six_vectors_array|]. split; [reflexivity|].
  exact (ranker_raises_iff_more_vectors 2 E [1; 0] df six_vectors_array
           eq_refl).
Defined.

(** X6: with one embedding vector per row, the summaries that
    [get_top_entries_by_centroid] returns are a rearrangement of the
    summaries of the rows (none lost, none repeated, the count kept), and
    the resolutions it returns are a rearrangement of the resolutions that
    are present. *)
Theorem ranker_lists_are_rearrangements
    (d : nat) (E : matrix) (c : vec) (df : dataframe) :
  is_array d E -> length c = d ->
  length E = length df ->
  exists top_summaries top_resolutions,
    get_top_entries_by_centroid E c df
    = Some (top_summaries, top_resolutions) /\
    Permutation top_summaries (map issue_summary df) /\
    length top_summaries = length df /\
    Permutation top_resolutions (dropna (map resolution df)) /\
    (length top_resolutions <= length top_summaries)%nat.
Proof.
  intros _ _ HL. pose proof (ranked_rows_perm E c df HL) as P.
  exists (map issue_summary (ranked_rows E c df)),
         (dropna (map resolution (ranked_rows E c df))).
  split; [now apply get_top_entries_by_centroid_eq|].
  split; [now apply Permutation_map|].
  split; [rewrite length_map; now apply Permutation_length|].
  split.
  - unfold dropna. apply Permutation_flat_map. now apply Permutation_map.
  - rewrite length_map. unfold dropna.
    generalize (ranked_rows E c df). intros l.
    induction l as [|r t IH]; simpl; [lia|].
    rewrite length_app. destruct (resolution r); simpl; lia.
Qed.

Lemma ranker_lists_are_rearrangements_witness :
  let E := [[3; 4]; [4; 3]; [1; 0]; [0; 1]; [5; 12]; [12; 5]] in
  let df := firstn 6 twelve_tickets in
  is_array 2 E /\ length [1; 0] = 2%nat /\
  length E = length df /\
  exists top_summaries top_resolutions,
    get_top_entries_by_centroid E [1; 0] df
    = Some (top_summaries, top_resolutions) /\
    Permutation top_summaries (map issue_summary df) /\
    length top_summaries = length df /\
    Permutation top_resolutions (dropna (map resolution df)) /\
    (length top_resolutions <= length top_summaries)%nat.
Proof.
  intros E df. split; [exact six_vectors_array|]. split; [reflexivity|].
  split; [reflexivity|].
  exact (ranker_lists_are_rearrangements 2 E [1; 0] df six_vectors_array
           eq_refl eq_refl).
Defined.

(* ================================================================== *)
(** * Further properties of cohesion and separation *)

Lemma dot_comm (x y : vec) : dot x y = dot y x.
Proof.
  revert y. induction x as [|a x IH]; intros [|b y]; simpl; try reflexivity.
  rewrite IH. lra.
Qed.

Lemma cosine_comm (x y : vec) : cosine x y = cosine y x.
Proof. unfold cosine. apply dot_comm. Qed.

Lemma cosine_bound (x y : vec) : -1 <= cosine x y <= 1.
Proof. apply dot_normalized_bound. Qed.

Lemma Rsum_map_plus {A : Type} (g h : A -> R) (l : list A) :
  Rsum (map (fun x => g x + h x) l) = Rsum (map g l) + Rsum (map h l).
Proof. induction l as [|a t IH]; simpl; [lra | rewrite IH; lra]. Qed.

Lemma Rsum_map_zero {A : Type} (l : list A) : Rsum (map (fun _ => 0) l) = 0.
Proof. induction l as [|a t IH]; simpl; [reflexivity | rewrite IH; lra]. Qed.

Lemma Rsum_swap {A B : Type} (f : A -> B -> R) (a : list A) (b : list B) :
  Rsum (map (fun x => Rsum (map (f x) b)) a) =
  Rsum (map (fun y => Rsum (map (fun x => f x y) a)) b).
Proof.
  induction a as [|x a IH]; simpl.
  - now rewrite Rsum_map_zero.
  - rewrite IH, <- Rsum_map_plus. reflexivity.
Qed.

Lemma Rsum_perm (l l' : list R) : Permutation l l' -> Rsum l = Rsum l'.
Proof. induction 1; simpl; lra. Qed.

Lemma mean_cross_similarity_comm (a b : matrix) :
  mean_cross_similarity a b = mean_cross_similarity b a.
Proof.
  unfold mean_cross_similarity. rewrite Rsum_swap, (Nat.mul_comm (length a)).
  f_equal. f_equal. apply map_ext. intros y. f_equal. apply map_ext.
  intros x. apply cosine_comm.
Qed.

(** X7: separation is symmetric: a subcluster is as far from a sibling as
    the sibling is from it. *)
Theorem compute_separation_symmetric (a b : matrix) :
  compute_separation a b = compute_separation b a.
Proof.
  rewrite !compute_separation_eq. now rewrite mean_cross_similarity_comm.
Qed.

Lemma mean_cross_similarity_bound (a b : matrix) :
  a <> [] -> b <> [] -> -1 <= mean_cross_similarity a b <= 1.
Proof.
  intros Ha Hb. unfold mean_cross_similarity.
  assert (Na : 1 <= INR (length a)).
  { destruct a; [easy|]. simpl length. rewrite S_INR.
    pose proof (pos_INR (length a)). lra. }
  assert (Nb : 1 <= INR (length b)).
  { destruct b; [easy|]. simpl length. rewrite S_INR.
    pose proof (pos_INR (length b)). lra. }
  assert (B : INR (length a) * - INR (length b)
              <= Rsum (map (fun x => Rsum (map (cosine x) b)) a)
              <= INR (length a) * INR (length b)).
  { apply Rsum_map_bounds. intros x _.
    pose proof (Rsum_map_bounds (cosine x) (-1) 1 b
                  (fun y _ => cosine_bound x y)). lra. }
  rewrite mult_INR.
  assert (P : 0 < INR (length a) * INR (length b)) by nra.
  split.
  - apply (Rmult_le_reg_r (INR (length a) * INR (length b))); [exact P|].
    unfold Rdiv. rewrite Rmult_assoc, Rinv_l by lra. lra.
  - apply (Rmult_le_reg_r (INR (length a) * INR (length b))); [exact P|].
    unfold Rdiv. rewrite Rmult_assoc, Rinv_l by lra. lra.
Qed.

(** X8: in exact arithmetic (floats as exact reals) the separation of two
    groups of vectors of one dimension lies between 0 and 2.  (In binary64
    it can fall below 0 by a rounding: [separation_float64_parallel].) *)
Theorem compute_separation_bounds (d : nat) (a b : matrix) :
  is_array d a -> is_array d b -> 0 <= compute_separation a b <= 2.
Proof.
  intros [Ha _] [Hb _]. rewrite compute_separation_eq.
  pose proof (mean_cross_similarity_bound a b Ha Hb). lra.
Qed.

Lemma compute_separation_bounds_witness :
  is_array 2 [[3; 4]] /\ is_array 2 [[4; 3]; [1; 0]] /\
  0 <= compute_separation [[3; 4]] [[4; 3]; [1; 0]] <= 2.
Proof.
  assert (Ha : is_array 2 [[3; 4]]).
  { split; [discriminate|]. split; [lia|]. repeat constructor. }
  assert (Hb : is_array 2 [[4; 3]; [1; 0]]).
  { split; [discriminate|]. split; [lia|]. repeat constructor. }
  split; [exact Ha|]. split; [exact Hb|].
  exact (compute_separation_bounds 2 _ _ Ha Hb).
Defined.

Lemma mean_bounds (l : list R) (lo hi : R) :
  l <> [] -> Forall (fun x => lo <= x <= hi) l ->
  lo <= Rsum l / INR (length l) <= hi.
Proof.
  intros Hne HF.
  assert (N : 1 <= INR (length l)).
  { destruct l; [easy|]. simpl length. rewrite S_INR.
    pose proof (pos_INR (length l)). lra. }
  assert (B : INR (length l) * lo <= Rsum (map (fun x => x) l)
              <= INR (length l) * hi).
  { apply Rsum_map_bounds. now apply Forall_forall. }
  rewrite map_id in B. split.
  - apply (Rmult_le_reg_r (INR (length l))); [lra|].
    unfold Rdiv. rewrite Rmult_assoc, Rinv_l by lra. lra.
  - apply (Rmult_le_reg_r (INR (length l))); [lra|].
    unfold Rdiv. rewrite Rmult_assoc, Rinv_l by lra. lra.
Qed.

(** X9: in exact arithmetic (floats as exact reals), when the subclusters
    of a parent cluster are arrays of one dimension and the centroid has
    that dimension, the separation stored in the appended record lies
    between 0 and 2.  (In binary64 the separation from a sibling can fall
    below 0 by a rounding: [separation_float64_parallel].) *)
Theorem record_separation_bounds (d cluster_id : nat) (centroids : matrix)
    (subclusters : list sub_entry) (s : sub_entry) (centroid : vec) :
  nth_error centroids (sub_id s) = Some centroid ->
  length centroid = d ->
  length (sub_embeddings s) = length (sub_df s) ->
  is_array d (sub_embeddings s) ->
  (forall o, In o subclusters -> is_array d (sub_embeddings o)) ->
  exists r,
    score_subcluster cluster_id centroids subclusters s = Some r /\
    0 <= separation r <= 2.
Proof.
  intros Hc _ HL [Hs _] Hall.
  exists (appended_record cluster_id subclusters s).
  split.
  { apply score_subcluster_eq; [|exact HL].
    apply nth_error_Some. rewrite Hc. discriminate. }
  simpl. unfold per_sibling_separation.
  destruct (siblings s subclusters) as [|o t] eqn:E; [lra|].
  rewrite <- (length_map (fun o0 => 1 - mean_cross_similarity
                                     (sub_embeddings s) (sub_embeddings o0))).
  apply mean_bounds; [discriminate|].
  apply Forall_forall. intros x Hx. apply in_map_iff in Hx as (o' & <- & Ho').
  assert (Hin : In o' subclusters).
  { assert (H : In o' (siblings s subclusters)) by now rewrite E.
    now apply filter_In in H. }
  destruct (Hall o' Hin) as [Ho _].
  pose proof (mean_cross_similarity_bound _ _ Hs Ho). lra.
Qed.

Lemma line_arrays (o : sub_entry) :
  In o [line_a; line_b; line_c] -> is_array 1 (sub_embeddings o).
Proof.
  intros [<-|[<-|[<-|[]]]]; (split; [discriminate|]; split; [lia|]);
    repeat constructor.
Qed.

Lemma record_separation_bounds_witness :
  nth_error ([[1]; [1]; [-1]]%R : matrix) (sub_id line_a) = Some [1] /\
  length [1] = 1%nat /\
  length (sub_embeddings line_a) = length (sub_df line_a) /\
  is_array 1 (sub_embeddings line_a) /\
  (forall o, In o [line_a; line_b; line_c] -> is_array 1 (sub_embeddings o)) /\
  exists r,
    score_subcluster 0 [[1]; [1]; [-1]] [line_a; line_b; line_c] line_a
    = Some r /\
    0 <= separation r <= 2.
Proof.
  assert (H1 : nth_error ([[1]; [1]; [-1]]%R : matrix) (sub_id line_a)
               = Some [1]) by reflexivity.
  assert (H2 : length (sub_embeddings line_a) = length (sub_df line_a))
    by reflexivity.
  assert (H3 : is_array 1 (sub_embeddings line_a))
    by (apply line_arrays; now left).
  split; [exact H1|]. split; [reflexivity|]. split; [exact H2|].
  split; [exact H3|]. split; [exact line_arrays|].
  exact (record_separation_bounds 1 0 _ _ _ [1] H1 eq_refl H2 H3 line_arrays).
Defined.







Lemma mean_cross_similarity_perm (a a' b b' : matrix) :
  Permutation a a' -> Permutation b b' ->
  mean_cross_similarity a' b' = mean_cross_similarity a b.
Proof.
  intros Pa Pb. unfold mean_cross_similarity.
  rewrite <- (Permutation_length Pa), <- (Permutation_length Pb). f_equal.
  rewrite (Rsum_perm _ _ (Permutation_map _ (Permutation_sym Pa))).
  f_equal. apply map_ext. intros x.
  apply Rsum_perm, Permutation_map. now apply Permutation_sym.
Qed.

(** X11: in exact arithmetic (floats as exact reals) the order of the
    members does not count: rearranging the embedding vectors of a
    subcluster changes neither its cohesion nor its separation from a
    (rearranged) sibling.  (In binary64 the sums depend on the order in the
    last bits: [cohesion_float64_rearranged].) *)
Theorem cosine_scores_order_invariant (E E' : matrix) :
  Permutation E E' ->
  compute_cohesion E' = compute_cohesion E /\
  (forall B B', Permutation B B' ->
                compute_separation E' B' = compute_separation E B).
Proof.
  intros P. split.
  - rewrite !compute_cohesion_eq, <- (Permutation_length P). f_equal.
    assert (PL : Permutation (normalize (normalize E))
                             (normalize (normalize E'))).
    { unfold normalize. now do 2 apply Permutation_map. }
    rewrite (Rsum_perm _ _ (Permutation_map _ (Permutation_sym PL))).
    f_equal. apply map_ext. intros x. f_equal.
    apply Rsum_perm, Permutation_map. now apply Permutation_sym.
  - intros B B' PB. rewrite !compute_separation_eq.
    now rewrite (mean_cross_similarity_perm E E' B B' P PB).
Qed.

Lemma cosine_scores_order_invariant_witness :
  let E := [[3; 4]; [1; 0]] in
  let E' := [[1; 0]; [3; 4]] in
  Permutation E E' /\
  compute_cohesion E' = compute_cohesion E /\
  (forall B B', Permutation B B' ->
                compute_separation E' B' = compute_separation E B).
Proof.
  intros E E'.
  assert (P : Permutation E E') by apply perm_swap.
  split; [exact P|]. exact (cosine_scores_order_invariant E E' P).
Defined.




Section Float64Scores.
Import PrimFloat.
Local Open Scope float_scope.

(** In binary64 the separation of parallel groups is not 0 but
    -2.220446049250313e-16, below the lower bound of the exact value. *)
Lemma separation_float64_parallel :
  Float64.compute_separation [[1; 1]] [[1; 1]] = -0x1p-52 /\
  Float64.compute_separation [[1; 1]] [[2; 2]; [3; 3]] = -0x1p-52 /\
  ltb (Float64.compute_separation [[1; 1]] [[1; 1]]) 0 = true.
Proof. vm_compute. repeat split. Qed.

(** In binary64 stretching a member by 3 changes the cohesion in its last
    bits. *)
Lemma cohesion_float64_stretched :
  Float64.compute_cohesion [[1; 4]; [0; 1]] = 0x1.f0b6848d2af1cp-1 /\
  Float64.compute_cohesion [[3; 12]; [0; 1]] = 0x1.f0b6848d2af1ep-1.
Proof. vm_compute. split; reflexivity. Qed.

(** In binary64 swapping the two members changes the cohesion in its last
    bits. *)
Lemma cohesion_float64_rearranged :
  Float64.compute_cohesion [[0; 1]; [1; 1]] = 0x1.6a09e667f3bccp-1 /\
  Float64.compute_cohesion [[1; 1]; [0; 1]] = 0x1.6a09e667f3bcep-1.
Proof. vm_compute. split; reflexivity. Qed.
End Float64Scores.

(* ================================================================== *)
(** * Further properties of the selection of k *)

Section BestKEdges.
Variable KMeans : nat -> matrix -> list nat * matrix.
Variable silhouette_score : matrix -> list nat -> R.
Variable X : matrix.
Variable total : nat.

Lemma best_k_step_empty (cs : list (nat * R)) (k : nat) :
  fst (KMeans k X) = [] ->
  best_k_step KMeans silhouette_score X total cs k = None.
Proof. intros E. unfold best_k_step. now rewrite E. Qed.

Lemma best_k_loop_none (ks : list nat) (cs : list (nat * R)) (k : nat) :
  In k ks -> fst (KMeans k X) = [] ->
  best_k_loop KMeans silhouette_score X total ks cs = None.
Proof.
  revert cs. induction ks as [|k0 ks IH]; intros cs Hin E; [easy|]. simpl.
  destruct (fst (KMeans k0 X)) as [|l0 ls] eqn:E0.
  - now rewrite best_k_step_empty.
  - rewrite best_k_step_eq by (rewrite E0; discriminate). simpl.
    destruct Hin as [->|Hin]; [congruence|]. now apply IH.
Qed.

Lemma compute_best_k_some :
  (forall k, In k [2; 3; 4]%nat -> fst (KMeans k X) <> []) ->
  exists best_k, compute_best_k KMeans silhouette_score X total = Some best_k.
Proof.
  intros Hne. unfold compute_best_k. change (seq 2 3) with [2; 3; 4]%nat.
  rewrite (best_k_loop_eq _ _ _ _ _ _ Hne). unfold bind.
  destruct (sort_by _ _); eauto.
Qed.

Lemma candidates_sorted (ks : list nat) :
  StronglySorted lt ks ->
  StronglySorted (fun a b : nat * R => (fst a < fst b)%nat)
    (flat_map (fun k => if rejected KMeans X total k then []
                        else [(k, silhouette_of KMeans silhouette_score X k)])
              ks).
Proof.
  induction 1 as [|k ks Hs IH Hk]; simpl; [constructor|].
  destruct (rejected KMeans X total k); simpl; [exact IH|].
  constructor; [exact IH|]. apply Forall_forall. intros c Hc.
  apply in_candidates in Hc as (Hin & _). simpl.
  rewrite Forall_forall in Hk. now apply Hk.
Qed.

(** X14: among the candidates that keep both bounds, a tie for the highest
    silhouette score goes to the smallest k. *)
Theorem compute_best_k_tie_smallest (best_k k : nat) :
  (forall k, In k [2; 3; 4]%nat -> fst (KMeans k X) <> []) ->
  compute_best_k KMeans silhouette_score X total = Some best_k ->
  In k [2; 3; 4]%nat ->
  ~ violates KMeans X total k ->
  silhouette_of KMeans silhouette_score X best_k
  <= silhouette_of KMeans silhouette_score X k ->
  (best_k <= k)%nat.
Proof.
  intros Hne Hb Hk Hv Hle. unfold compute_best_k in Hb.
  change (seq 2 3) with [2; 3; 4]%nat in Hb.
  rewrite (best_k_loop_eq _ _ _ _ _ _ Hne) in Hb. unfold bind in Hb.
  rewrite app_nil_l in Hb.
  set (cands := flat_map _ _) in Hb.
  assert (Hin : In (k, silhouette_of KMeans silhouette_score X k) cands).
  { apply in_candidates. simpl. split; [exact Hk|]. split; [|reflexivity].
    destruct (rejected KMeans X total k) eqn:E; [|reflexivity].
    exfalso. apply Hv. now apply (rejected_iff _ _ _ _ (Hne k Hk)). }
  pose proof (sort_by_perm (fun c : nat * R => - snd c) cands) as P.
  assert (S : StronglySorted
                (lex_lt (fun c : nat * R => - snd c)
                        (fun a b => (fst a < fst b)%nat))
                (sort_by (fun c : nat * R => - snd c) cands)).
  { apply sort_by_lex. apply candidates_sorted.
    change [2; 3; 4]%nat with (seq 2 3). apply seq_sorted. }
  apply (Permutation_in _ (Permutation_sym P)) in Hin.
  destruct (sort_by (fun c : nat * R => - snd c) cands) as [|c rest] eqn:E;
    [easy|].
  apply Some_inj in Hb. subst best_k.
  assert (Hc : In c cands) by (apply (Permutation_in _ P); now left).
  apply in_candidates in Hc as (_ & _ & Hs).
  destruct Hin as [->|Hin]; [simpl; lia|].
  inversion S as [|? ? _ Hhd]; subst.
  rewrite Forall_forall in Hhd. specialize (Hhd _ Hin).
  unfold lex_lt in Hhd. simpl in Hhd. rewrite Hs in Hhd.
  destruct Hhd as [Hlt|[_ Hlt]]; [lra | lia].
Qed.
End BestKEdges.

Lemma twenty_best_k :
  compute_best_k twenty_KMeans twelve_silhouette [] 20 = Some 2%nat.
Proof.
  unfold compute_best_k, best_k_loop, best_k_step, bind. cbn.
  unfold max_prop_exceeds, twelve_silhouette. eval_R. reflexivity.
Qed.

Lemma twenty_three_kept : ~ violates twenty_KMeans [] 20 3.
Proof.
  intros H. apply (rejected_iff twenty_KMeans [] 20 3) in H;
    [|discriminate].
  revert H. unfold rejected. cbn. unfold max_prop_exceeds. eval_R;
    discriminate.
Qed.

Lemma compute_best_k_tie_smallest_witness :
  (forall k, In k [2; 3; 4]%nat -> fst (twenty_KMeans k []) <> []) /\
  compute_best_k twenty_KMeans twelve_silhouette [] 20 = Some 2%nat /\
  In 3%nat [2; 3; 4]%nat /\
  ~ violates twenty_KMeans [] 20 3 /\
  silhouette_of twenty_KMeans twelve_silhouette [] 2
  <= silhouette_of twenty_KMeans twelve_silhouette [] 3 /\
  (2 <= 3)%nat.
Proof.
  assert (H1 : forall k, In k [2; 3; 4]%nat -> fst (twenty_KMeans k []) <> []).
  { intros k [<-|[<-|[<-|[]]]]; discriminate. }
  assert (H3 : In 3%nat [2; 3; 4]%nat) by (simpl; auto).
  assert (H5 : silhouette_of twenty_KMeans twelve_silhouette [] 2
               <= silhouette_of twenty_KMeans twelve_silhouette [] 3).
  { unfold silhouette_of, twelve_silhouette. lra. }
  split; [exact H1|]. split; [exact twenty_best_k|]. split; [exact H3|].
  split; [exact twenty_three_kept|]. split; [exact H5|].
  exact (compute_best_k_tie_smallest twenty_KMeans twelve_silhouette [] 20
           2 3 H1 twenty_best_k H3 twenty_three_kept H5).
Defined.

(* ================================================================== *)
(** * Further properties of the partition and of the loop over the
      parent clusters *)

Lemma boolean_mask_count {A : Type} (labels : list nat) (l : list A) (j : nat) :
  length labels = length l ->
  length (boolean_mask (map (fun lab => (lab =? j)%nat) labels) l)
  = count_occ Nat.eq_dec labels j.
Proof.
  revert l. induction labels as [|lab labels IH]; intros [|x l] HL;
    try discriminate; [reflexivity|].
  injection HL as HL. simpl map. rewrite boolean_mask_cons. simpl count_occ.
  destruct (Nat.eq_dec lab j) as [->|Hne].
  - rewrite Nat.eqb_refl. simpl. f_equal. now apply IH.
  - destruct (Nat.eqb_spec lab j); [contradiction|]. now apply IH.
Qed.

Lemma boolean_mask_combine {A B : Type} (mask : list bool)
    (a : list A) (b : list B) :
  length a = length b ->
  combine (boolean_mask mask a) (boolean_mask mask b)
  = boolean_mask mask (combine a b).
Proof.
  revert a b. induction mask as [|m mask IH]; intros [|x a] [|y b] HL;
    try discriminate; try reflexivity.
  injection HL as HL. simpl combine. rewrite !boolean_mask_cons.
  destruct m; simpl; [f_equal|]; now apply IH.
Qed.

Lemma concat_map_cons {A B : Type} (F : A -> list B) (j : A) (js : list A) :
  concat (map F (j :: js)) = F j ++ concat (map F js).
Proof. reflexivity. Qed.

Lemma mask_step {A : Type} (j lab : nat) (labels : list nat)
    (x : A) (l : list A) :
  boolean_mask (map (fun lab0 => (lab0 =? j)%nat) (lab :: labels)) (x :: l)
  = if (lab =? j)%nat
    then x :: boolean_mask (map (fun lab0 => (lab0 =? j)%nat) labels) l
    else boolean_mask (map (fun lab0 => (lab0 =? j)%nat) labels) l.
Proof. simpl map. apply boolean_mask_cons. Qed.

Lemma masks_other_label {A : Type} (lab : nat) (labels : list nat)
    (x : A) (l : list A) (js : list nat) :
  ~ In lab js ->
  map (fun j => boolean_mask
                  (map (fun lab0 => (lab0 =? j)%nat) (lab :: labels)) (x :: l))
      js
  = map (fun j => boolean_mask (map (fun lab0 => (lab0 =? j)%nat) labels) l)
        js.
Proof.
  intros Hnotin. apply map_ext_in. intros j Hj. rewrite mask_step.
  destruct (Nat.eqb_spec lab j) as [->|_]; [contradiction | reflexivity].
Qed.

Lemma masks_own_label {A : Type} (lab : nat) (labels : list nat)
    (x : A) (l : list A) (js : list nat) :
  NoDup js -> In lab js ->
  Permutation
    (concat (map (fun j => boolean_mask
                             (map (fun lab0 => (lab0 =? j)%nat) (lab :: labels))
                             (x :: l)) js))
    (x :: concat (map (fun j => boolean_mask
                                  (map (fun lab0 => (lab0 =? j)%nat) labels) l)
                      js)).
Proof.
  induction 1 as [|j js Hnotin Hnd IH]; intros Hin; [easy|].
  rewrite !concat_map_cons. cbv beta. rewrite mask_step.
  destruct (Nat.eqb_spec lab j) as [->|Hne].
  - rewrite (masks_other_label j labels x l js Hnotin). reflexivity.
  - destruct Hin as [Hin|Hin]; [congruence|].
    rewrite (IH Hin). symmetry. apply Permutation_middle.
Qed.

Lemma concat_masks_perm {A : Type} (labels : list nat) (l : list A)
    (js : list nat) :
  length labels = length l ->
  NoDup js ->
  Forall (fun lab => In lab js) labels ->
  Permutation
    (concat (map (fun j => boolean_mask
                             (map (fun lab => (lab =? j)%nat) labels) l) js))
    l.
Proof.
  intros HL Hnd. revert l HL.
  induction labels as [|lab labels IH]; intros [|x l] HL HF;
    try discriminate.
  - clear. induction js as [|j js IHj]; simpl; [constructor | exact IHj].
  - injection HL as HL. inversion HF as [|? ? Hlab HF']; subst.
    rewrite (masks_own_label lab labels x l js Hnd Hlab).
    constructor. now apply IH.
Qed.

(** X15: the subclusters of the first pass split the parent cluster: when
    every label is below [k], each row of the parent cluster, paired with
    its own embedding vector, lies in exactly one subcluster, and within
    each subcluster the rows and the vectors stay paired. *)
Theorem first_pass_partitions_pairs (cluster_df : dataframe)
    (E : matrix) (labels : list nat) (k : nat) :
  length labels = length cluster_df ->
  length E = length cluster_df ->
  Forall (fun l => (l < k)%nat) labels ->
  Permutation
    (concat (map (fun s => combine (sub_df s) (sub_embeddings s))
                 (first_pass cluster_df E labels k)))
    (combine cluster_df E) /\
  Forall (fun s => length (sub_df s) = length (sub_embeddings s))
         (first_pass cluster_df E labels k).
Proof.
  intros HL HE HF. unfold first_pass. rewrite map_map. simpl. split.
  - rewrite (map_ext _ (fun j => boolean_mask
                                   (map (fun lab => (lab =? j)%nat) labels)
                                   (combine cluster_df E)))
      by (intros j; apply boolean_mask_combine; now rewrite HE).
    apply concat_masks_perm.
    + rewrite length_combine, HE, Nat.min_id. exact HL.
    + apply seq_NoDup.
    + eapply Forall_impl; [|exact HF]. intros lab Hlab. cbv beta in Hlab.
      apply in_seq. split; [apply Nat.le_0_l | exact Hlab].
  - apply Forall_forall. intros s Hs. apply in_map_iff in Hs as (j & <- & _).
    simpl. apply boolean_mask_lengths. now rewrite HE.
Qed.

Lemma first_pass_partitions_pairs_witness :
  let labels := fst (twelve_KMeans 2 []) in
  let E := twelve_encode [] in
  length labels = length twelve_tickets /\
  length E = length twelve_tickets /\
  Forall (fun l => (l < 2)%nat) labels /\
  Permutation
    (concat (map (fun s => combine (sub_df s) (sub_embeddings s))
                 (first_pass twelve_tickets E labels 2)))
    (combine twelve_tickets E) /\
  Forall (fun s => length (sub_df s) = length (sub_embeddings s))
         (first_pass twelve_tickets E labels 2).
Proof.
  intros labels E.
  assert (H1 : length labels = length twelve_tickets) by reflexivity.
  assert (H2 : length E = length twelve_tickets) by reflexivity.
  assert (H3 : Forall (fun l => (l < 2)%nat) labels)
    by (repeat constructor).
  split; [exact H1|]. split; [exact H2|]. split; [exact H3|].
  exact (first_pass_partitions_pairs twelve_tickets E labels 2 H1 H2 H3).
Defined.

Section PipelineEdges.
Variable encode_reduce : list string -> matrix.
Variable KMeans : nat -> matrix -> list nat * matrix.
Variable silhouette_score : matrix -> list nat -> R.

Lemma compute_best_k_labels (X : matrix) (total best_k : nat) :
  compute_best_k KMeans silhouette_score X total = Some best_k ->
  forall k, In k [2; 3; 4]%nat -> fst (KMeans k X) <> [].
Proof.
  intros Hb k Hk E. unfold compute_best_k in Hb.
  change (seq 2 3) with [2; 3; 4]%nat in Hb.
  rewrite (best_k_loop_none KMeans silhouette_score X total _ _ k Hk E) in Hb.
  discriminate.
Qed.

Lemma compute_best_k_kept (X : matrix) (total best_k : nat) :
  compute_best_k KMeans silhouette_score X total = Some best_k ->
  best_k <> 1%nat ->
  In best_k [2; 3; 4]%nat /\ rejected KMeans X total best_k = false.
Proof.
  intros Hb H1. pose proof (compute_best_k_labels X total best_k Hb) as Hne.
  unfold compute_best_k in Hb. change (seq 2 3) with [2; 3; 4]%nat in Hb.
  rewrite (best_k_loop_eq _ _ _ _ _ _ Hne) in Hb. unfold bind in Hb.
  rewrite app_nil_l in Hb.
  pose proof (sort_by_perm (fun c : nat * R => - snd c)
                (flat_map (fun k => if rejected KMeans X total k then []
                             else [(k, silhouette_of KMeans silhouette_score X k)])
                          [2; 3; 4]%nat)) as P.
  destruct (sort_by _ _) as [|c rest]; [congruence|].
  apply Some_inj in Hb. subst best_k.
  assert (Hc : In c (c :: rest)) by now left.
  apply (Permutation_in _ P), in_candidates in Hc as (Hk & Hr & _).
  now split.
Qed.

(** X16: every record appended for a partitioned parent cluster (with a
    regular clustering) carries the identifier of the parent cluster, has
    as size the number of vectors that carry its label, stores that many
    summaries, and its size is at least 5 and at most 85% of the parent
    cluster. *)
Theorem promoted_sizes_respect_bounds (cluster_id : nat)
    (cluster_df : dataframe) (d k : nat) :
  compute_best_k KMeans silhouette_score
    (parent_embeddings encode_reduce cluster_df) (length cluster_df) = Some k ->
  k <> 1%nat ->
  KMeans_contract encode_reduce KMeans cluster_df k ->
  regular_clustering encode_reduce KMeans cluster_df d k ->
  exists records,
    process_cluster encode_reduce KMeans silhouette_score cluster_id cluster_df
    = Some records /\
    Forall (fun r =>
              cluster r = cluster_id /\
              size r = count_occ Nat.eq_dec
                         (fst (KMeans k (parent_embeddings encode_reduce
                                                           cluster_df)))
                         (subcluster_id r) /\
              length (summaries r) = size r /\
              (5 <= size r)%nat /\
              INR (size r) <= 85 / 100 * INR (length cluster_df))
           records.
Proof.
  intros Hk Hk1 HC (_ & _ & Hused). pose proof HC as (HE & HL & HF & HN).
  eexists. split;
    [exact (process_cluster_eq encode_reduce KMeans silhouette_score
              cluster_id cluster_df k Hk Hk1 HC)|].
  set (X := parent_embeddings encode_reduce cluster_df) in *.
  set (labels := fst (KMeans k X)) in *.
  destruct (compute_best_k_kept X (length cluster_df) k Hk Hk1) as [Hin Hrej].
  assert (Hnv : ~ violates KMeans X (length cluster_df) k).
  { intros Hv.
    apply (rejected_iff KMeans X (length cluster_df) k) in Hv; [congruence|].
    exact (compute_best_k_labels X _ k Hk k Hin). }
  apply Forall_forall. intros r Hr.
  apply in_map_iff in Hr as (s & <- & Hs).
  apply in_first_pass in Hs as (Hid & Hdf & _). simpl.
  assert (Hsz : length (sub_df s) = count_occ Nat.eq_dec labels (sub_id s)).
  { rewrite Hdf. now apply boolean_mask_count. }
  split; [reflexivity|]. split; [exact Hsz|].
  split; [apply length_map|]. rewrite Hsz.
  assert (Hl : In (sub_id s) labels) by (apply Hused; exact Hid).
  split.
  - destruct (Nat.lt_ge_cases (count_occ Nat.eq_dec labels (sub_id s)) 5)
      as [Hlt|Hge]; [|exact Hge].
    exfalso. apply Hnv. left. exists (sub_id s). now split.
  - destruct (Rle_dec (INR (count_occ Nat.eq_dec labels (sub_id s)))
                (85 / 100 * INR (length cluster_df))) as [Hle|Hgt];
      [exact Hle|].
    exfalso. apply Hnv. right. exists (sub_id s).
    split; [exact Hl | apply Rnot_le_lt; exact Hgt].
Qed.

Lemma process_clusters_acc (groups : list (nat * dataframe))
    (acc : list subcluster_stats) :
  process_clusters encode_reduce KMeans silhouette_score groups acc =
  match process_clusters encode_reduce KMeans silhouette_score groups [] with
  | Some records => Some (acc ++ records)
  | None => None
  end.
Proof.
  revert acc. induction groups as [|[cid df] rest IH]; intros acc; simpl.
  - now rewrite app_nil_r.
  - destruct (process_cluster _ _ _ cid df) as [recs|]; simpl; [|reflexivity].
    rewrite (IH (acc ++ recs)), (IH recs).
    destruct (process_clusters _ _ _ rest []); [|reflexivity].
    now rewrite app_assoc.
Qed.

(** X17: the parent clusters are processed one after the other and their
    records are appended in that order: the accumulator of a list of
    groups followed by another is the accumulator of the first followed by
    that of the second, and an exception in either makes the whole call
    raise. *)
Theorem generate_subclusters_app (groups1 groups2 : list (nat * dataframe)) :
  generate_subclusters encode_reduce KMeans silhouette_score
    (groups1 ++ groups2) =
  match generate_subclusters encode_reduce KMeans silhouette_score groups1,
        generate_subclusters encode_reduce KMeans silhouette_score groups2
  with
  | Some records1, Some records2 => Some (records1 ++ records2)
  | _, _ => None
  end.
Proof.
  unfold generate_subclusters.
  induction groups1 as [|[cid df] rest IH]; simpl.
  - destruct (process_clusters _ _ _ groups2 []); reflexivity.
  - destruct (process_cluster _ _ _ cid df) as [recs|]; simpl; [|reflexivity].
    rewrite (process_clusters_acc (rest ++ groups2) recs), IH.
    rewrite (process_clusters_acc rest recs).
    destruct (process_clusters _ _ _ rest []) as [r1|]; [|reflexivity].
    destruct (process_clusters _ _ _ groups2 []) as [r2|]; [|reflexivity].
    now rewrite app_assoc.
Qed.

(** X18: a parent cluster for which [compute_best_k] returns the sentinel 1
    is skipped: it adds no record, whatever the other parent clusters
    are. *)
Theorem sentinel_group_is_skipped (cluster_id : nat) (cluster_df : dataframe)
    (before after : list (nat * dataframe)) :
  compute_best_k KMeans silhouette_score
    (parent_embeddings encode_reduce cluster_df) (length cluster_df)
  = Some 1%nat ->
  generate_subclusters encode_reduce KMeans silhouette_score
    (before ++ (cluster_id, cluster_df) :: after) =
  generate_subclusters encode_reduce KMeans silhouette_score (before ++ after).
Proof.
  intros Hk.
  assert (E : process_cluster encode_reduce KMeans silhouette_score
                cluster_id cluster_df = Some []).
  { unfold process_cluster. fold (parent_embeddings encode_reduce cluster_df).
    now rewrite Hk. }
  unfold generate_subclusters.
  induction before as [|[cid df] rest IH]; simpl.
  - now rewrite E.
  - destruct (process_cluster _ _ _ cid df) as [recs|]; simpl; [|reflexivity].
    rewrite (process_clusters_acc (rest ++ _ :: after) recs), IH.
    now rewrite <- process_clusters_acc.
Qed.
End PipelineEdges.

Lemma promoted_sizes_respect_bounds_witness :
  compute_best_k twelve_KMeans twelve_silhouette
    (parent_embeddings twelve_encode twelve_tickets) (length twelve_tickets)
  = Some 2%nat /\
  2%nat <> 1%nat /\
  KMeans_contract twelve_encode twelve_KMeans twelve_tickets 2 /\
  regular_clustering twelve_encode twelve_KMeans twelve_tickets 2 2 /\
  exists records,
    process_cluster twelve_encode twelve_KMeans twelve_silhouette 7
      twelve_tickets = Some records /\
    Forall (fun r =>
              cluster r = 7%nat /\
              size r = count_occ Nat.eq_dec
                         (fst (twelve_KMeans 2
                                 (parent_embeddings twelve_encode
                                                    twelve_tickets)))
                         (subcluster_id r) /\
              length (summaries r) = size r /\
              (5 <= size r)%nat /\
              INR (size r) <= 85 / 100 * INR (length twelve_tickets))
           records.
Proof.
  assert (H1 : compute_best_k twelve_KMeans twelve_silhouette
                 (parent_embeddings twelve_encode twelve_tickets)
                 (length twelve_tickets) = Some 2%nat)
    by apply compute_best_k_twelve.
  assert (H2 : 2%nat <> 1%nat) by discriminate.
  assert (H4 : regular_clustering twelve_encode twelve_KMeans
                 twelve_tickets 2 2).
  { split; [|split].
    - split; [discriminate|]. split; [lia|]. repeat constructor.
    - repeat constructor.
    - intros j Hj. destruct j as [|[|j]]; [| |lia]; simpl; auto 10. }
  split; [exact H1|]. split; [exact H2|]. split; [exact twelve_contract|].
  split; [exact H4|].
  exact (promoted_sizes_respect_bounds twelve_encode twelve_KMeans
           twelve_silhouette 7 twelve_tickets 2 2 H1 H2 twelve_contract H4).
Defined.

Lemma four_best_k (X : matrix) :
  compute_best_k four_KMeans twelve_silhouette X 4 = Some 1%nat.
Proof.
  unfold compute_best_k, best_k_loop, best_k_step, bind. cbn. reflexivity.
Qed.

Lemma sentinel_group_is_skipped_witness :
  let df := firstn 4 twelve_tickets in
  compute_best_k four_KMeans twelve_silhouette
    (parent_embeddings twelve_encode df) (length df) = Some 1%nat /\
  generate_subclusters twelve_encode four_KMeans twelve_silhouette
    ([] ++ (3%nat, df) :: []) =
  generate_subclusters twelve_encode four_KMeans twelve_silhouette
    ([] ++ []).
Proof.
  intros df.
  assert (H : compute_best_k four_KMeans twelve_silhouette
                (parent_embeddings twelve_encode df) (length df) = Some 1%nat)
    by apply four_best_k.
  split; [exact H|].
  exact (sentinel_group_is_skipped twelve_encode four_KMeans twelve_silhouette
           3 df [] [] H).
Defined.

(* ================================================================== *)
(** * The file of the short list and its reader *)

Section JoinedCells.
Local Open Scope string_scope.

Lemma append_nil_r (s : string) : s ++ "" = s.
Proof. induction s as [|c s IH]; simpl; [reflexivity | now rewrite IH]. Qed.

Lemma append_assoc (a b c : string) : (a ++ b) ++ c = a ++ (b ++ c).
Proof. induction a as [|x a IH]; simpl; [reflexivity | now rewrite IH]. Qed.

Lemma split_scan_plain (sep cur u v : string) :
  (forall u1 u2, u = u1 ++ u2 -> u2 <> "" ->
                 String.prefix sep (u2 ++ v) = false) ->
  split_scan sep 0 cur (u ++ v) = split_scan sep 0 (cur ++ u) v.
Proof.
  revert cur. induction u as [|c u IH]; intros cur H.
  - simpl. now rewrite append_nil_r.
  - change (String c u ++ v) with (String c (u ++ v)). cbn [split_scan].
    change (String c (u ++ v)) with (String c u ++ v).
    rewrite (H "" (String c u) eq_refl) by discriminate.
    rewrite IH.
    + now rewrite append_assoc.
    + intros u1 u2 E Hne. apply (H (String c u1) u2); [|exact Hne].
      simpl. now rewrite E.
Qed.

Lemma prefix_cons (a b : ascii) (s1 s2 : string) :
  String.prefix (String a s1) (String b s2) =
  if ascii_dec a b then String.prefix s1 s2 else false.
Proof. reflexivity. Qed.

Lemma prefix_iff (sep s : string) :
  String.prefix sep s = true <-> exists t, s = sep ++ t.
Proof.
  revert s. induction sep as [|a sep IH]; intros s.
  - split; [intros _; now exists s | intros _; now destruct s].
  - destruct s as [|b s].
    + split; [discriminate | intros (t & E); discriminate].
    + rewrite prefix_cons. destruct (ascii_dec a b) as [->|Hne].
      * rewrite IH. split; intros (t & E); exists t.
        -- simpl. now rewrite E.
        -- simpl in E. now injection E.
      * split; [discriminate|]. intros (t & E). simpl in E.
        injection E as E1 E2. congruence.
Qed.

Lemma prefix_false (sep s : string) :
  (forall t, s <> sep ++ t) -> String.prefix sep s = false.
Proof.
  intros H. destruct (String.prefix sep s) eqn:E; [|reflexivity].
  apply prefix_iff in E as (t & E). now apply H in E.
Qed.

Lemma suffix_snoc (c : ascii) (s u1 u2 : string) :
  s ++ String c "" = u1 ++ u2 -> u2 <> "" ->
  exists s2, u2 = s2 ++ String c "" /\ s = u1 ++ s2.
Proof.
  revert u1. induction s as [|d s IH]; intros u1 E Hne.
  - destruct u1 as [|x u1]; simpl in E.
    + exists "". now split.
    + injection E as _ E. destruct u1; simpl in E; [congruence | discriminate].
  - destruct u1 as [|x u1]; simpl in E.
    + exists (String d s). now split.
    + injection E as -> E. destruct (IH u1 E Hne) as (s2 & E2 & Es).
      exists s2. split; [exact E2|]. simpl. now rewrite Es.
Qed.

(** No occurrence of the separator starts inside an item that does not
    contain it, nor at the blank that follows the item. *)
Lemma no_pipes_before_separator (s v u1 u2 : string) :
  ~ contains "|||" s ->
  s ++ " " = u1 ++ u2 -> u2 <> "" ->
  String.prefix "|||" (u2 ++ v) = false.
Proof.
  intros Hc E Hne. destruct (suffix_snoc _ _ _ _ E Hne) as (s2 & -> & ->).
  apply prefix_false. intros t Et. apply Hc.
  destruct s2 as [|a [|b [|c r]]]; simpl in Et; try discriminate.
  injection Et as -> -> -> Et. exists u1, r. reflexivity.
Qed.

Lemma no_pipes_in_last (s u1 u2 : string) :
  ~ contains "|||" s ->
  s = u1 ++ u2 -> u2 <> "" ->
  String.prefix "|||" (u2 ++ "") = false.
Proof.
  intros Hc E Hne. rewrite append_nil_r. apply prefix_false. intros t Et.
  apply Hc. exists u1, t. now rewrite E, Et.
Qed.

Lemma split_scan_item (cur s rest : string) :
  ~ contains "|||" s ->
  split_scan "|||" 0 cur (s ++ " ||| " ++ rest) =
  (cur ++ s ++ " ") :: split_scan "|||" 0 " " rest.
Proof.
  intros Hc.
  change (s ++ " ||| " ++ rest) with (s ++ " " ++ "||| " ++ rest).
  rewrite <- append_assoc.
  rewrite split_scan_plain
    by (intros u1 u2; apply no_pipes_before_separator; exact Hc).
  reflexivity.
Qed.

Lemma split_scan_last (cur s : string) :
  ~ contains "|||" s ->
  split_scan "|||" 0 cur s = [cur ++ s].
Proof.
  intros Hc. rewrite <- (append_nil_r s) at 1.
  rewrite split_scan_plain; [reflexivity|].
  intros u1 u2. apply no_pipes_in_last. exact Hc.
Qed.

Variable isspace : ascii -> bool.
Hypothesis blank_isspace : isspace " "%char = true.

Lemma str_rstrip_blank (s : string) :
  str_rstrip isspace (s ++ " ") = str_rstrip isspace s.
Proof.
  induction s as [|c s IH]; simpl.
  - now rewrite blank_isspace.
  - now rewrite IH.
Qed.

Lemma str_lstrip_blank (s : string) :
  str_lstrip isspace (s ++ " ") = str_lstrip isspace s ++ " " \/
  (str_lstrip isspace (s ++ " ") = "" /\ str_lstrip isspace s = "").
Proof.
  induction s as [|c s IH]; simpl.
  - rewrite blank_isspace. now right.
  - destruct (isspace c); [exact IH | now left].
Qed.

Lemma str_strip_blank_after (s : string) :
  str_strip isspace (s ++ " ") = str_strip isspace s.
Proof.
  unfold str_strip. destruct (str_lstrip_blank s) as [E|[E1 E2]].
  - rewrite E. apply str_rstrip_blank.
  - now rewrite E1, E2.
Qed.

Lemma str_strip_blank_before (s : string) :
  str_strip isspace (" " ++ s) = str_strip isspace s.
Proof. unfold str_strip. simpl. now rewrite blank_isspace. Qed.

Lemma parts_of_joined (cur : string) (items : list string) :
  items <> [] ->
  Forall (fun s => ~ contains "|||" s) items ->
  cur = "" \/ cur = " " ->
  map (str_strip isspace)
      (split_scan "|||" 0 cur (str_join " ||| " items))
  = map (str_strip isspace) items.
Proof.
  revert cur. induction items as [|s items IH]; intros cur Hne HF Hcur;
    [easy|].
  inversion HF as [|? ? Hs HF']; subst.
  assert (Ecur : forall t, str_strip isspace (cur ++ t) = str_strip isspace t).
  { intros t. destruct Hcur as [->| ->]; [reflexivity|].
    apply str_strip_blank_before. }
  destruct items as [|s' items].
  - unfold str_join. simpl String.concat.
    rewrite (split_scan_last cur s Hs). simpl. now rewrite Ecur.
  - unfold str_join. change (String.concat " ||| " (s :: s' :: items))
      with (s ++ " ||| " ++ str_join " ||| " (s' :: items)).
    rewrite (split_scan_item cur s _ Hs). rewrite !map_cons.
    rewrite Ecur, str_strip_blank_after. f_equal.
    apply IH; [discriminate | exact HF' | now right].
Qed.

(** X19: the cell that [save_subclusters] writes for a list of texts is
    read back by the parser of faq_gen.py as these texts, stripped, without
    the ones that are blank, provided that no text contains the three
    bars of the separator; texts that are already stripped and not empty
    come back unchanged. *)
Theorem joined_cell_round_trip (items : list string) :
  Forall (fun s => ~ contains "|||" s) items ->
  parse_joined isspace (str_join " ||| " items)
  = Some (filter str_truthy (map (str_strip isspace) items)) /\
  (Forall (fun s => str_strip isspace s = s /\ s <> "") items ->
   parse_joined isspace (str_join " ||| " items) = Some items).
Proof.
  intros HF.
  assert (E : parse_joined isspace (str_join " ||| " items)
              = Some (filter str_truthy (map (str_strip isspace) items))).
  { unfold parse_joined, str_split, bind. f_equal.
    destruct items as [|s items]; [reflexivity|].
    f_equal. apply parts_of_joined; [discriminate | exact HF | now left]. }
  split; [exact E|]. intros Hclean. rewrite E. f_equal.
  clear E HF. induction Hclean as [|s items [Hs Hne] _ IH]; [reflexivity|].
  simpl. rewrite Hs, IH. destruct s; [contradiction | reflexivity].
Qed.
End JoinedCells.

Lemma occursb_eq (sep s : string) :
  occursb sep s =
  String.prefix sep s ||
  match s with
  | EmptyString => false
  | String _ s' => occursb sep s'
  end.
Proof. destruct s; reflexivity. Qed.

Lemma occursb_false (sep s : string) :
  occursb sep s = false -> ~ contains sep s.
Proof.
  intros H (a & b & E). revert s H E.
  induction a as [|x a IH]; intros s H E.
  - assert (P : String.prefix sep s = true)
      by (apply prefix_iff; now exists b).
    rewrite occursb_eq, P in H. discriminate.
  - destruct s as [|y s]; [discriminate|]. simpl in E. injection E as _ E.
    apply (IH s); [|exact E]. rewrite occursb_eq in H.
    now apply orb_false_iff in H.
Qed.

Lemma joined_cell_round_trip_witness :
  let items := ["disk quota exceeded"; "ssh | hangs"]%string in
  py_isspace " "%char = true /\
  Forall (fun s => ~ contains "|||" s) items /\
  parse_joined py_isspace (str_join " ||| " items)
  = Some (filter str_truthy (map (str_strip py_isspace) items)) /\
  parse_joined py_isspace (str_join " ||| " items) = Some items.
Proof.
  intros items.
  assert (H0 : py_isspace " "%char = true) by reflexivity.
  assert (H1 : Forall (fun s => ~ contains "|||" s) items).
  { repeat constructor; apply occursb_false; reflexivity. }
  destruct (joined_cell_round_trip py_isspace H0 items H1) as [E1 E2].
  split; [exact H0|]. split; [exact H1|]. split; [exact E1|].
  apply E2. repeat constructor; discriminate.
Defined.

Section MainFacts.
Variable encode_reduce : list string -> matrix.
Variable KMeans : nat -> matrix -> list nat * matrix.
Variable silhouette_score : matrix -> list nat -> R.

(** X20: the main program writes a file exactly when the accumulator is
    not empty: it raises when [generate_subclusters] raises and when no
    parent cluster gave a subcluster (the scaler has nothing to fit);
    otherwise it writes the header and one row for each selected record,
    at most NUM_FAQs rows and fewer than there are records. *)
Theorem main_writes_iff_candidates (groups : list (nat * dataframe)) :
  (select_subclusters_main encode_reduce KMeans silhouette_score groups = None
   <->
   generate_subclusters encode_reduce KMeans silhouette_score groups = None \/
   generate_subclusters encode_reduce KMeans silhouette_score groups = Some [])
  /\
  (forall acc,
      generate_subclusters encode_reduce KMeans silhouette_score groups
      = Some acc ->
      acc <> [] ->
      exists top,
        select_top_subclusters acc = Some top /\
        select_subclusters_main encode_reduce KMeans silhouette_score groups
        = Some (csv_header :: map csv_row top) /\
        (length top <= NUM_FAQs)%nat /\
        (length top < length acc)%nat).
Proof.
  unfold select_subclusters_main.
  destruct (generate_subclusters _ _ _ groups) as [acc|] eqn:G; simpl.
  - split.
    + split.
      * intros H. right. f_equal.
        destruct (select_top_subclusters acc) as [top|] eqn:E;
          [discriminate|].
        destruct acc as [|s t]; [reflexivity|]. exfalso.
        assert (Hne : s :: t <> []) by discriminate.
        destruct (compute_ranked_scores_spec _ (4 / 10) (12 / 10) (2 / 10) Hne)
          as (lo & hi & _ & _ & E').
        rewrite (select_top_subclusters_eq _ _ E') in E. discriminate.
      * intros [H|H]; [discriminate|]. apply Some_inj in H. now subst acc.
    + intros acc' Eacc Hne. apply Some_inj in Eacc. subst acc'.
      destruct (compute_ranked_scores_spec _ (4 / 10) (12 / 10) (2 / 10) Hne)
        as (lo & hi & [Hlo _] & _ & E').
      rewrite (select_top_subclusters_eq _ _ E'). eexists.
      split; [reflexivity|]. split; [reflexivity|].
      set (updated := map _ acc).
      assert (L : (length (filter size_in_bounds updated) < length acc)%nat).
      { apply in_map_iff in Hlo as (s0 & Es0 & Hs0).
        assert (Hin : In (scored lo hi (4 / 10) (12 / 10) (2 / 10) s0) updated)
          by (apply in_map; exact Hs0).
        assert (Hf : size_in_bounds
                       (scored lo hi (4 / 10) (12 / 10) (2 / 10) s0) = false).
        { apply not_true_iff_false. rewrite size_in_bounds_iff.
          unfold get_normalized_size, scored. simpl. rewrite Es0.
          unfold MIN_SIZE, EPSILON. unfold min_max.
          destruct (Req_dec_T lo hi); [lra|]. unfold Rdiv.
          rewrite Rminus_diag, Rmult_0_l. lra. }
        rewrite <- (length_map (scored lo hi (4 / 10) (12 / 10) (2 / 10)) acc).
        fold updated. clear -Hin Hf.
        induction updated as [|u us IH]; [easy|]. simpl.
        destruct Hin as [->|Hin].
        - rewrite Hf. pose proof (filter_length_le size_in_bounds us). lia.
        - specialize (IH Hin). destruct (size_in_bounds u); simpl; lia. }
      split.
      * apply firstn_le_length.
      * eapply Nat.le_lt_trans; [|exact L].
        rewrite length_firstn,
          (Permutation_length (sorted_reverse_perm get_score _)). lia.
  - split; [split; [now left | reflexivity]|]. intros acc H. discriminate.
Qed.
End MainFacts.

(* ================================================================== *)
(** * A sharper lower bound of the cohesion *)

Lemma Rsum_map_scal {A : Type} (c : R) (g : A -> R) (l : list A) :
  Rsum (map (fun y => c * g y) l) = c * Rsum (map g l).
Proof. induction l as [|a t IH]; simpl; [lra | rewrite IH; lra]. Qed.

Lemma Rsum_products {A : Type} (f : A -> R) (l : list A) :
  Rsum (map (fun x => Rsum (map (fun y => f x * f y) l)) l)
  = Rsum (map f l) * Rsum (map f l).
Proof.
  rewrite (map_ext _ (fun x => Rsum (map f l) * f x)).
  - rewrite Rsum_map_scal. reflexivity.
  - intros x. rewrite Rsum_map_scal. lra.
Qed.

Lemma Rsum_map_ext_in {A : Type} (g h : A -> R) (l : list A) :
  (forall x, In x l -> g x = h x) -> Rsum (map g l) = Rsum (map h l).
Proof. intros H. f_equal. now apply map_ext_in. Qed.

(** The sum of all pairwise dot products of vectors of one dimension is the
    squared length of their sum. *)
Lemma pairwise_dots_nonneg (d : nat) (L : matrix) :
  Forall (fun r => length r = d) L ->
  0 <= Rsum (map (fun x => Rsum (map (dot x) L)) L).
Proof.
  revert L. induction d as [|d IH]; intros L HF; rewrite Forall_forall in HF.
  - rewrite (Rsum_map_ext_in _ (fun _ => 0)).
    + rewrite Rsum_map_zero. lra.
    + intros x Hx. apply HF in Hx. destruct x; [|discriminate].
      rewrite (Rsum_map_ext_in _ (fun _ => 0)); [apply Rsum_map_zero|].
      reflexivity.
  - assert (E : Rsum (map (fun x => Rsum (map (dot x) L)) L)
                = Rsum (map (fun x => Rsum (map (fun y => hd 0 x * hd 0 y) L)) L)
                  + Rsum (map (fun x => Rsum (map (dot x) (map (@tl R) L)))
                              (map (@tl R) L))).
    { rewrite map_map, <- Rsum_map_plus. apply Rsum_map_ext_in. intros x Hx.
      rewrite map_map, <- Rsum_map_plus. apply Rsum_map_ext_in. intros y Hy.
      pose proof (HF x Hx) as Lx. pose proof (HF y Hy) as Ly.
      destruct x as [|a x]; [discriminate|].
      destruct y as [|b y]; [discriminate|]. reflexivity. }
    rewrite E, Rsum_products.
    assert (T : 0 <= Rsum (map (fun x => Rsum (map (dot x) (map (@tl R) L)))
                              (map (@tl R) L))).
    { apply IH. apply Forall_forall. intros r Hr.
      apply in_map_iff in Hr as (x & <- & Hx). apply HF in Hx.
      destruct x; [discriminate|]. simpl in *. lia. }
    pose proof (Rle_0_sqr (Rsum (map (hd 0) L))) as Q. unfold Rsqr in Q. lra.
Qed.

(** X21: the cohesion of an array of N >= 2 vectors is at least
    -1 / (N - 1); with the floor of five members it is at least -1/4. *)
Theorem cohesion_lower_bound (E : matrix) (d : nat) :
  (2 <= length E)%nat ->
  is_array d E ->
  - 1 / (INR (length E) - 1) <= compute_cohesion E /\
  ((5 <= length E)%nat -> - 1 / 4 <= compute_cohesion E).
Proof.
  intros HN (_ & _ & HF).
  assert (N2 : 2 <= INR (length E)).
  { apply le_INR in HN. simpl in HN. lra. }
  assert (B : - 1 / (INR (length E) - 1) <= compute_cohesion E).
  { rewrite compute_cohesion_eq. set (L := normalize (normalize E)).
    assert (HL : length L = length E)
      by (unfold L; now rewrite !normalize_length).
    rewrite <- Rsum_map_minus.
    assert (P : 0 <= Rsum (map (fun x => Rsum (map (dot x) L)) L)).
    { apply (pairwise_dots_nonneg d). unfold L, normalize.
      rewrite map_map. apply Forall_forall. intros r Hr.
      apply in_map_iff in Hr as (x & <- & Hx).
      unfold normalize_row. rewrite !length_map.
      rewrite Forall_forall in HF. now apply HF. }
    assert (D : Rsum (map (fun x => dot x x) L) <= INR (length L) * 1).
    { apply Rsum_map_bounds with (lo := 0). intros x Hx.
      unfold L, normalize at 1 in Hx.
      apply in_map_iff in Hx as (x0 & <- & _).
      split; [apply dot_self_nonneg | apply normalize_row_self_le]. }
    rewrite HL in D.
    set (n := INR (length E)) in *.
    set (tot := Rsum (map (fun x => Rsum (map (dot x) L)) L)) in *.
    set (dia := Rsum (map (fun x => dot x x) L)) in *.
    assert (Hpos : 0 < n * (n - 1)) by nra.
    apply (Rmult_le_reg_r (n * (n - 1))); [exact Hpos|].
    unfold Rdiv. rewrite (Rmult_assoc (tot - dia)), Rinv_l by lra.
    replace (-1 * / (n - 1) * (n * (n - 1))) with (- n) by (field; lra).
    lra. }
  split; [exact B|]. intros H5.
  assert (N5 : 5 <= INR (length E)).
  { apply le_INR in H5. simpl in H5. lra. }
  eapply Rle_trans; [|exact B].
  apply (Rmult_le_reg_r (INR (length E) - 1)); [lra|].
  replace (-1 / (INR (length E) - 1) * (INR (length E) - 1)) with (-1)
    by (field; lra).
  lra.
Qed.

Lemma cohesion_lower_bound_witness :
  let E := [[1; 0]; [-1; 0]; [0; 1]; [0; -1]; [3; 4]] in
  (2 <= length E)%nat /\
  is_array 2 E /\
  - 1 / (INR (length E) - 1) <= compute_cohesion E /\
  ((5 <= length E)%nat -> - 1 / 4 <= compute_cohesion E).
Proof.
  intros E.
  assert (H1 : (2 <= length E)%nat) by (simpl; lia).
  assert (H2 : is_array 2 E).
  { split; [discriminate|]. split; [lia|]. repeat constructor. }
  split; [exact H1|]. split; [exact H2|].
  exact (cohesion_lower_bound E 2 H1 H2).
Defined.
